(** * S3Store: a shallow embedding of [lib/stores/S3Store.ts]

    The store adapts tus resumable uploads onto S3 multipart uploads.  The
    embedding follows the source method by method.  Promises become
    computations in a state-and-outcome monad over the store (its cache, the
    object store behind the client, and a journal of the requests issued);
    the aws-sdk client is an interface whose operations act on an abstract
    object-store state.

    Asynchronous steps are read in sequence: a request is answered before
    the next step of the store runs, the two reads that [write] starts
    together run one after the other, and a chunk's upload has settled when
    the splitter's next event is handled.  [Promise.all] takes the first
    rejection in array order.

    Conventions for JavaScript values:
    - a number that holds a byte count or a part number is a [Z];
    - a value that may be [undefined] (or [NaN], for the result of
      arithmetic) is an [option];
    - an object used as a dictionary is a [gmap] keyed by strings. *)

From Stdlib Require Import ZArith Lia Ascii String List Sorted Permutation.
From stdpp Require Import base option list gmap strings sorting.

Local Open Scope string_scope.
Local Open Scope Z_scope.
Local Open Scope list_scope.

(** ** JavaScript values *)

Module Js.

(** Truthiness of a string-or-undefined and of a number-or-undefined. *)
Definition truthy_string (v : option string) : bool :=
  match v with
  | Some s => negb (String.eqb s "")
  | None => false
  end.

Definition truthy_number (v : option Z) : bool :=
  match v with
  | Some n => negb (Z.eqb n 0)
  | None => false
  end.

(** [a || b] on strings-or-undefined. *)
Definition or_string (a b : option string) : option string :=
  if truthy_string a then a else b.

(** [Number.parseInt(v, 10)] where [v] is an integer number or
    [undefined]; [None] is [NaN].  Byte counts are far below 1e21, where
    the decimal rendering of a number reads back as the number itself. *)
Definition parseInt (v : option Z) : option Z := v.

(** [a === b] where [a] is a number or [NaN] and [b] is a number, [NaN] or
    [undefined]: [NaN] is equal to nothing, not even itself. *)
Definition strict_eq (a b : option Z) : bool :=
  match a, b with
  | Some x, Some y => Z.eqb x y
  | _, _ => false
  end.

(** [a + n] where [a] is a number, [NaN] or [undefined]. *)
Definition add (a : option Z) (n : Z) : option Z :=
  match a with
  | Some x => Some (x + n)
  | None => None
  end.

(** [s.split(c)] for a one-character separator. *)
Fixpoint split (c : ascii) (s : string) : list string :=
  match s with
  | EmptyString => [EmptyString]
  | String a rest =>
      if Ascii.eqb a c then EmptyString :: split c rest
      else match split c rest with
           | [] => [String a EmptyString]
           | w :: ws => String a w :: ws
           end
  end.

End Js.

(** ** Errors *)

(** What the code throws or a promise rejects with.  Errors of the aws-sdk
    and of streams carry a [code]; [new Error(..)], [TypeError] and
    [SyntaxError] do not, and neither does [ERRORS.FILE_NOT_FOUND], a
    constant of [lib/constants] (not among the sources) that stands for
    itself here. *)
Inductive Error : Type :=
| CodedError (code : string) (statusCode : option Z) (message : string)
| JsError (name message : string)
| FILE_NOT_FOUND.

Definition error_code (e : Error) : option string :=
  match e with
  | CodedError c _ _ => Some c
  | _ => None
  end.

Definition error_statusCode (e : Error) : option Z :=
  match e with
  | CodedError _ sc _ => sc
  | _ => None
  end.

(** [String(e)], as used by [new Error(e)]. *)
Definition error_to_string (e : Error) : string :=
  match e with
  | CodedError c _ m => c +:+ ": " +:+ m
  | JsError n m => n +:+ ": " +:+ m
  | FILE_NOT_FOUND => "[object Object]"
  end.

(** A text between double quotes. *)
Definition quoted (s : string) : string :=
  String (ascii_of_nat 34) s +:+ String (ascii_of_nat 34) EmptyString.

Definition new_Error (message : string) : Error := JsError "Error" message.
Definition TypeError (message : string) : Error := JsError "TypeError" message.
Definition SyntaxError (message : string) : Error := JsError "SyntaxError" message.

#[global] Instance Error_eq_dec : EqDecision Error.
Proof. solve_decision. Defined.

(** ** Data model *)

(** The upload as the front end hands it over ([file] in the source). *)
Record File : Type := mkFile {
  id : string;
  upload_length : option Z;
  upload_defer_length : option Z;
  upload_metadata : option string;
  creation_date : option string
}.

(** An S3 part as [listParts] reports it. *)
Record Part : Type := mkPart {
  PartNumber : Z;
  Size : Z;
  ETag : string
}.

(** A cache entry: the sidecar's user metadata with [file] parsed and
    [upload_id] resolved.  [file] is [None] when the parsed value is falsy
    (the JSON text [null]). *)
Record Session : Type := mkSession {
  file : option File;
  upload_id : option string;
  attrs : gmap string string
}.

(** What [getOffset] returns: the spread of the cached file, with [size],
    the declared lengths and (unless the multipart upload is gone) the parts. *)
Record Offset : Type := mkOffset {
  offset_file : option File;
  size : option Z;
  offset_upload_length : option Z;
  offset_upload_defer_length : option Z;
  parts : option (list Part)
}.

(** One entry of the parsed tus metadata string. *)
Record MetadataValue : Type := mkMetadataValue {
  encoded : option string;
  decoded : option string
}.

#[global] Instance File_eq_dec : EqDecision File.
Proof. solve_decision. Defined.
#[global] Instance Part_eq_dec : EqDecision Part.
Proof. solve_decision. Defined.

(** ** The aws-sdk client *)

(** Request parameters, one record per operation used. *)

Record MultipartMetadata : Type := mkMultipartMetadata {
  mm_tus_version : string;
  mm_upload_length : option Z;
  mm_upload_defer_length : option Z;
  mm_upload_metadata : option string;
  mm_original_name : option string
}.

Record CreateMultipartUploadRequest : Type := mkCreateMultipartUploadRequest {
  cmu_Bucket : string;
  cmu_Key : string;
  cmu_Metadata : MultipartMetadata;
  cmu_ContentType : option string
}.

Record InfoMetadata : Type := mkInfoMetadata {
  im_file : string;
  im_upload_id : option string;
  im_tus_version : string
}.

Record PutObjectRequest : Type := mkPutObjectRequest {
  po_Bucket : string;
  po_Key : string;
  po_Body : string;
  po_Metadata : InfoMetadata
}.

Record HeadObjectRequest : Type := mkHeadObjectRequest {
  ho_Bucket : string;
  ho_Key : string
}.

Record UploadPartRequest : Type := mkUploadPartRequest {
  up_Bucket : string;
  up_Key : string;
  up_UploadId : option string;
  up_PartNumber : Z;
  up_Body : string  (* path of the chunk file the body is streamed from *)
}.

Record ListPartsRequest : Type := mkListPartsRequest {
  lp_Bucket : string;
  lp_Key : string;
  lp_UploadId : option string;
  lp_PartNumberMarker : option Z
}.

Record CompletedPart : Type := mkCompletedPart {
  cp_ETag : string;
  cp_PartNumber : Z
}.

Record CompleteMultipartUploadRequest : Type := mkCompleteMultipartUploadRequest {
  cm_Bucket : string;
  cm_Key : string;
  cm_UploadId : option string;
  cm_Parts : list CompletedPart
}.

Record ListPartsOutput : Type := mkListPartsOutput {
  Parts : list Part;
  NextPartNumberMarker : option Z
}.

(** Every request the store issues, and every chunk file it removes; the
    store keeps them in a journal so that statements can say which calls
    were made, in which order, with which parameters. *)
Inductive Call : Type :=
| HeadBucket (Bucket : string)
| CreateMultipartUpload (r : CreateMultipartUploadRequest)
| PutObject (r : PutObjectRequest)
| HeadObject (r : HeadObjectRequest)
| UploadPart (r : UploadPartRequest)
| ListParts (r : ListPartsRequest)
| CompleteMultipartUpload (r : CompleteMultipartUploadRequest)
| FsRm (path : string).

(** The client: each operation takes the object store's state and answers
    with a response or an error, and the next state.  [headBucket] answers
    with [data], which the source tests for truthiness; [headObject] answers
    with the object's user metadata. *)
Record S3Client (W : Type) : Type := mkS3Client {
  headBucket : string -> W -> (Error + option unit) * W;
  createMultipartUpload : CreateMultipartUploadRequest -> W -> (Error + string) * W;
  putObject : PutObjectRequest -> W -> (Error + unit) * W;
  headObject : HeadObjectRequest -> W -> (Error + gmap string string) * W;
  uploadPart : UploadPartRequest -> W -> (Error + string) * W;
  listParts : ListPartsRequest -> W -> (Error + ListPartsOutput) * W;
  completeMultipartUpload : CompleteMultipartUploadRequest -> W -> (Error + string) * W
}.

Arguments headBucket {W} _ _ _.
Arguments createMultipartUpload {W} _ _ _.
Arguments putObject {W} _ _ _.
Arguments headObject {W} _ _ _.
Arguments uploadPart {W} _ _ _.
Arguments listParts {W} _ _ _.
Arguments completeMultipartUpload {W} _ _ _.

(** ** The store and its promises *)

(** The mutable state of one [S3Store] instance. *)
Record Store (W : Type) : Type := mkStore {
  cache : gmap string Session;
  s3 : W;
  calls : list Call
}.

Arguments mkStore {W} _ _ _.
Arguments cache {W} _.
Arguments s3 {W} _.
Arguments calls {W} _.

(** How a promise ends.  [Pending] is the promise that never settles; in
    this embedding only the pagination of [listParts] can produce it, when
    the object store keeps handing out continuation markers. *)
Inductive Outcome (A : Type) : Type :=
| Resolved (a : A)
| Rejected (e : Error)
| Pending.

Arguments Resolved {A} _.
Arguments Rejected {A} _.
Arguments Pending {A}.

Definition Promise (W A : Type) : Type := Store W -> Outcome A * Store W.

Section Promises.
Context {W : Type}.

Definition resolve {A} (a : A) : Promise W A := fun st => (Resolved a, st).

Definition reject {A} (e : Error) : Promise W A := fun st => (Rejected e, st).

(** [p.then(k)], also the sequencing of [await]. *)
Definition andThen {A B} (p : Promise W A) (k : A -> Promise W B) : Promise W B :=
  fun st =>
    match p st with
    | (Resolved a, st') => k a st'
    | (Rejected e, st') => (Rejected e, st')
    | (Pending, st') => (Pending, st')
    end.

(** [p.catch(h)], also [try { await p } catch (e) { h }]. *)
Definition catch {A} (p : Promise W A) (h : Error -> Promise W A) : Promise W A :=
  fun st =>
    match p st with
    | (Rejected e, st') => h e st'
    | r => r
    end.

(** [p.finally(f)] where [f] cannot fail. *)
Definition finally {A} (p : Promise W A) (f : Store W -> Store W) : Promise W A :=
  fun st =>
    match p st with
    | (Pending, st') => (Pending, st')
    | (r, st') => (r, f st')
    end.

(** A promise whose outcome is already known. *)
Definition settled {A} (o : Outcome A) : Promise W A := fun st => (o, st).

(** A call whose promise is dropped: the work is done, its outcome is not
    looked at. *)
Definition not_awaited {A} (p : Promise W A) : Promise W unit :=
  fun st => (Resolved tt, snd (p st)).

(** [Promise.all([a, b])] for two calls started together: both run, and the
    first rejection in array order is the one surfaced. *)
Definition all2 {A B} (a : Promise W A) (b : Promise W B) : Promise W (A * B) :=
  fun st =>
    let '(ra, st1) := a st in
    let '(rb, st2) := b st1 in
    match ra, rb with
    | Rejected e, _ => (Rejected e, st2)
    | _, Rejected e => (Rejected e, st2)
    | Resolved x, Resolved y => (Resolved (x, y), st2)
    | _, _ => (Pending, st2)
    end.

(** Journal a call. *)
Definition record_call (c : Call) : Store W -> Store W :=
  fun st => mkStore (cache st) (s3 st) (calls st ++ [c]).

(** Issue a request: journal it, let the object store answer. *)
Definition request {A} (c : Call) (op : W -> (Error + A) * W) : Promise W A :=
  fun st =>
    let '(r, w') := op (s3 st) in
    let st' := mkStore (cache st) w' (calls st ++ [c]) in
    match r with
    | inl e => (Rejected e, st')
    | inr a => (Resolved a, st')
    end.

Definition read_cache : Promise W (gmap string Session) :=
  fun st => (Resolved (cache st), st).

Definition write_cache (f : gmap string Session -> gmap string Session) : Promise W unit :=
  fun st => (Resolved tt, mkStore (f (cache st)) (s3 st) (calls st)).

End Promises.

Declare Scope promise_scope.
Delimit Scope promise_scope with promise.
Notation "'await' x <- p ;; k" := (andThen p (fun x => k))
  (at level 10, x name, p at level 99, k at level 200) : promise_scope.
Notation "'await' ' pat <- p ;; k" := (andThen p (fun x => match x with pat => k end))
  (at level 10, pat pattern, p at level 99, k at level 200) : promise_scope.
Notation "'run' p ;; k" := (andThen p (fun _ => k))
  (at level 10, p at level 99, k at level 200) : promise_scope.
Local Open Scope promise_scope.

(** ** The stream splitter, as the coordinator sees it *)

(** Modelled from the spec: the [FileStreamSplitter] of
    [lib/models/StreamSplitter] is not among the sources.  The spec has it
    emit [chunkStarted(filepath)] when a chunk file is opened and
    [chunkFinished({path, size})] when it is closed, in the order the chunks
    are produced and before the pipeline callback fires, which carries the
    stream's error if there was one.  A readable stream piped through the
    splitter is therefore the run of events it gives rise to. *)
Inductive SplitterEvent : Type :=
| chunkStarted (filepath : string)
| chunkFinished (path : string) (size : Z).

Record Readable : Type := mkReadable {
  events : list SplitterEvent;
  pipelineErr : option Error
}.

(** An entry of the [promises] array of [_processUpload].  A chunk's promise
    remembers what its closure captured: the part number it was assigned,
    and the chunk's path and size. *)
Inductive PromiseEntry : Type :=
| ChunkPromise (partNumber : Z) (path : string) (size : Z) (outcome : Outcome (option string))
| PipelinePromise (outcome : Outcome unit).

Definition entry_outcome (p : PromiseEntry) : Outcome unit :=
  match p with
  | ChunkPromise _ _ _ (Resolved _) => Resolved tt
  | ChunkPromise _ _ _ (Rejected e) => Rejected e
  | ChunkPromise _ _ _ Pending => Pending
  | PipelinePromise o => o
  end.

(** [Promise.all(promises)]: rejects with the first rejection, taken here in
    array order; resolves when every promise has resolved. *)
Fixpoint first_rejection {A} (ps : list (Outcome A)) : option Error :=
  match ps with
  | [] => None
  | Rejected e :: _ => Some e
  | _ :: rest => first_rejection rest
  end.

Fixpoint all_resolved {A} (ps : list (Outcome A)) : option (list A) :=
  match ps with
  | [] => Some []
  | Resolved a :: rest =>
      match all_resolved rest with
      | Some l => Some (a :: l)
      | None => None
      end
  | _ :: _ => None
  end.

Definition Promise_all {A} (ps : list (Outcome A)) : Outcome (list A) :=
  match first_rejection ps with
  | Some e => Rejected e
  | None =>
      match all_resolved ps with
      | Some l => Resolved l
      | None => Pending
      end
  end.

(** The local variables of [_processUpload] that its event handlers share. *)
Record Coordinator : Type := mkCoordinator {
  pendingChunkFilepath : option string;
  current_size : option Z;
  currentPartNumber : Z;
  promises : list PromiseEntry
}.

(** ** Sorting and filtering the listed parts *)

(** [parts.sort((a, b) => a.PartNumber - b.PartNumber)]: a stable sort by
    part number. *)
Fixpoint insert_part (p : Part) (l : list Part) : list Part :=
  match l with
  | [] => [p]
  | q :: rest =>
      if PartNumber p <=? PartNumber q then p :: q :: rest
      else q :: insert_part p rest
  end.

Definition sort_parts (l : list Part) : list Part := foldr insert_part [] l.

(** [parts.filter((value, index) => value.PartNumber === index + 1)], with
    [index] counted from [i]. *)
Fixpoint filter_index_from (i : Z) (l : list Part) : list Part :=
  match l with
  | [] => []
  | value :: rest =>
      if PartNumber value =? i + 1 then value :: filter_index_from (i + 1) rest
      else filter_index_from (i + 1) rest
  end.

Definition filter_index (l : list Part) : list Part := filter_index_from 0 l.

(** [parts.reduce((a, b) => a + b.Size, 0)]. *)
Definition sum_sizes (l : list Part) : Z := fold_left (fun a b => a + Size b) l 0.

(** ** The store's methods *)

(** What the methods read but never change: the fields of [this] set by the
    constructor, and the library functions and constants they rely on. *)
Class Config (W : Type) : Type := mkConfig {
  client : S3Client W;
  bucket_name : string;
  (** [TUS_RESUMABLE] of [lib/constants], which is not among the sources. *)
  TUS_RESUMABLE : string;
  (** [JSON.stringify] and [JSON.parse] on uploads: parsing fails ([None]),
      yields a falsy value ([Some None]) or yields an upload. *)
  JSON_stringify : File -> string;
  JSON_parse : string -> option (option File);
  (** [Buffer.from(s, 'base64').toString('ascii')]. *)
  base64_to_ascii : string -> string;
  (** How many pages of [listParts] a retrieval follows before the embedding
      gives the promise up as pending. *)
  page_fuel : nat
}.

Section S3Store.

Context {W : Type} {this : Config W}.

Definition _bucketExists : Promise W (option unit) :=
  catch
    (await data <- request (HeadBucket bucket_name) (headBucket client bucket_name) ;;
     match data with
     | None => reject (new_Error ("bucket " +:+ quoted bucket_name +:+ " does not exist"))
     | Some _ => resolve data
     end)
    (fun error_ =>
       reject
         (if decide (error_statusCode error_ = Some 404)
          then new_Error ("[S3Store] bucket " +:+ quoted bucket_name +:+ " does not exist")
          else new_Error (error_to_string error_))).

Definition _parseMetadataString (metadata_string : option string) : gmap string MetadataValue :=
  match metadata_string with
  | None => ∅
  | Some s =>
      if String.eqb s "" then ∅
      else
        let kv_pair_list := Js.split "," s in
        fold_left
          (fun metadata kv_pair =>
             match Js.split " " kv_pair with
             | [] => metadata
             | key :: rest =>
                 let base64_value := head rest in
                 <[key := {| encoded := base64_value;
                             decoded := base64_to_ascii <$> base64_value |}]> metadata
             end)
          kv_pair_list ∅
  end.

Definition _saveMetadata (file : File) (upload_id : option string)
  : Promise W (File * option string) :=
  let metadata :=
    {| im_file := JSON_stringify file;
       im_upload_id := upload_id;
       im_tus_version := TUS_RESUMABLE |} in
  let params :=
    {| po_Bucket := bucket_name;
       po_Key := id file +:+ ".info";
       po_Body := "";
       po_Metadata := metadata |} in
  catch
    (run request (PutObject params) (putObject client params) ;;
     resolve (file, upload_id))
    (fun error => reject error).

Definition _initMultipartUpload (file : File) : Promise W (File * option string) :=
  let parsedMetadata := _parseMetadataString (upload_metadata file) in
  let upload_data :=
    {| cmu_Bucket := bucket_name;
       cmu_Key := id file;
       cmu_Metadata :=
         {| mm_tus_version := TUS_RESUMABLE;
            mm_upload_length := upload_length file;
            mm_upload_defer_length := upload_defer_length file;
            mm_upload_metadata := upload_metadata file;
            mm_original_name :=
              match parsedMetadata !! "filename" with
              | Some v => encoded v
              | None => None
              end |};
       cmu_ContentType :=
         match parsedMetadata !! "contentType" with
         | Some v => decoded v
         | None => None
         end |} in
  catch
    (await UploadId <- request (CreateMultipartUpload upload_data)
                               (createMultipartUpload client upload_data) ;;
     _saveMetadata file (Some UploadId))
    (fun error => reject error).

Definition _getMetadata (file_id : string) : Promise W Session :=
  await c <- read_cache ;;
  match c !! file_id with
  | Some (mkSession (Some f) u a) => resolve (mkSession (Some f) u a)
  | _ =>
      let params := {| ho_Bucket := bucket_name; ho_Key := file_id +:+ ".info" |} in
      catch
        (await Metadata <- request (HeadObject params) (headObject client params) ;;
         match Metadata !! "file" with
         | None => reject (SyntaxError (quoted "undefined" +:+ " is not valid JSON"))
         | Some text =>
             match JSON_parse text with
             | None => reject (SyntaxError "Unexpected token in JSON")
             | Some parsed =>
                 let entry :=
                   {| file := parsed;
                      upload_id := Js.or_string (Metadata !! "upload_id")
                                                (Metadata !! "upload-id");
                      attrs := delete "upload_id" (delete "file" Metadata) |} in
                 run write_cache (insert file_id entry) ;;
                 resolve entry
             end
         end)
        (fun error => reject error)
  end.

Definition _uploadPart (metadata : Session) (read_stream : string) (current_part_number : Z)
  : Promise W string :=
  match file metadata with
  | None => reject (TypeError "Cannot read properties of null (reading 'id')")
  | Some f =>
      let params :=
        {| up_Bucket := bucket_name;
           up_Key := id f;
           up_UploadId := upload_id metadata;
           up_PartNumber := current_part_number;
           up_Body := read_stream |} in
      request (UploadPart params) (uploadPart client params)
  end.

(** The body of the [chunkFinished] handler's promise [p]: decide between
    skipping and uploading, then remove the chunk file whatever happened.
    [current_size] is the closure variable as this chunk's handler left it:
    the splitter emits [chunkFinished] from a file-close callback, so the
    promise's first step runs before the next event is handled. *)
Definition chunk_promise (metadata : Session) (path : string) (size : Z)
    (partNumber : Z) (current_size : option Z) : Promise W (option string) :=
  finally
    (match file metadata with
     | None => reject (TypeError "Cannot read properties of null (reading 'upload_length')")
     | Some f =>
         (* Skip chunk if it is not last and is smaller than 5MB *)
         let is_last_chunk := Js.strict_eq (Js.parseInt (upload_length f)) current_size in
         if negb is_last_chunk && (size <? 5 * 1024 * 1024)
         then resolve None
         else
           await etag <- _uploadPart metadata path partNumber ;;
           resolve (Some etag)
     end)
    (record_call (FsRm path)).

(** One event of the splitter, handled. *)
Definition on_event (metadata : Session) (ev : SplitterEvent) (c : Coordinator)
  : Store W -> Coordinator * Store W :=
  fun st =>
    match ev with
    | chunkStarted filepath =>
        (mkCoordinator (Some filepath) (current_size c) (currentPartNumber c) (promises c), st)
    | chunkFinished path size =>
        let current_size' := Js.add (current_size c) size in
        let partNumber := currentPartNumber c in
        let '(outcome, st') := chunk_promise metadata path size partNumber current_size' st in
        (mkCoordinator None current_size' (currentPartNumber c + 1)
           (promises c ++ [ChunkPromise partNumber path size outcome]), st')
    end.

Fixpoint on_events (metadata : Session) (evs : list SplitterEvent) (c : Coordinator)
  : Store W -> Coordinator * Store W :=
  fun st =>
    match evs with
    | [] => (c, st)
    | ev :: rest =>
        let '(c', st') := on_event metadata ev c st in
        on_events metadata rest c' st'
    end.

(** The pipeline callback: remove the chunk file left half-written by a
    failed stream, push the pipeline's own promise, resolve. *)
Definition on_pipeline_done (pipelineErr : option Error) (c : Coordinator)
  : Store W -> list PromiseEntry * Store W :=
  fun st =>
    let st' :=
      match pipelineErr, pendingChunkFilepath c with
      | Some _, Some pending => record_call (FsRm pending) st
      | _, _ => st
      end in
    (promises c ++
       [PipelinePromise match pipelineErr with
                        | Some e => Rejected e
                        | None => Resolved tt
                        end], st').

Definition _processUpload (metadata : Session) (readStream : Readable)
    (currentPartNumber : Z) (current_size : option Z) : Promise W (list PromiseEntry) :=
  fun st =>
    let c0 := mkCoordinator None current_size currentPartNumber [] in
    let '(c, st1) := on_events metadata (events readStream) c0 st in
    let '(ps, st2) := on_pipeline_done (pipelineErr readStream) c st1 in
    (Resolved ps, st2).

Definition _finishMultipartUpload (metadata : Session) (parts : option (list Part))
  : Promise W string :=
  match file metadata with
  | None => reject (TypeError "Cannot read properties of null (reading 'id')")
  | Some f =>
      match parts with
      | None => reject (TypeError "Cannot read properties of undefined (reading 'map')")
      | Some ps =>
          let params :=
            {| cm_Bucket := bucket_name;
               cm_Key := id f;
               cm_UploadId := upload_id metadata;
               cm_Parts :=
                 map (fun part => {| cp_ETag := ETag part;
                                     cp_PartNumber := PartNumber part |}) ps |} in
          catch
            (request (CompleteMultipartUpload params) (completeMultipartUpload client params))
            (fun error => reject error)
      end
  end.

(** [_retrieveParts]; [fuel] bounds the number of pages followed, and the
    promise stays pending when the object store hands out more continuation
    markers than that. *)
Fixpoint _retrieveParts (fuel : nat) (file_id : string) (part_number_marker : option Z)
  : Promise W (list Part) :=
  match fuel with
  | O => settled Pending
  | S fuel' =>
      await c <- read_cache ;;
      match c !! file_id with
      | None => reject (TypeError "Cannot read properties of undefined (reading 'upload_id')")
      | Some entry =>
          let params :=
            {| lp_Bucket := bucket_name;
               lp_Key := file_id;
               lp_UploadId := upload_id entry;
               lp_PartNumberMarker :=
                 if Js.truthy_number part_number_marker then part_number_marker else None |} in
          await parts <-
            (await data <- request (ListParts params) (listParts client params) ;;
             if Js.truthy_number (NextPartNumberMarker data)
             then
               await val <- _retrieveParts fuel' file_id (NextPartNumberMarker data) ;;
               resolve (Parts data ++ val)
             else resolve (Parts data)) ;;
          (* Sort and filter only for call where `part_number_marker` is not set *)
          match part_number_marker with
          | None => resolve (filter_index (sort_parts parts))
          | Some _ => resolve parts
          end
      end
  end.

Definition _countParts (file_id : string) : Promise W Z :=
  await parts <- _retrieveParts page_fuel file_id None ;;
  resolve (Z.of_nat (length parts)).

Definition _clearCache (file_id : string) : Promise W unit :=
  write_cache (delete file_id).

Definition create (file : File) : Promise W File :=
  catch
    (run _bucketExists ;;
     run _initMultipartUpload file ;;
     resolve file)
    (fun error =>
       run _clearCache (id file) ;;
       reject error).

(** The object literal that [getOffset] returns, in evaluation order: the
    spread of [this.cache[id].file], then [size], then the lengths read off
    [metadata.file]. *)
Definition offset_record (id : string) (metadata : Session)
    (size_of : File -> option Z) (parts : option (list Part)) : Promise W Offset :=
  await c <- read_cache ;;
  match c !! id with
  | None => reject (TypeError "Cannot read properties of undefined (reading 'file')")
  | Some entry =>
      match file metadata with
      | None => reject (TypeError "Cannot read properties of null (reading 'upload_length')")
      | Some f =>
          resolve {| offset_file := file entry;
                     size := size_of f;
                     offset_upload_length := upload_length f;
                     offset_upload_defer_length := upload_defer_length f;
                     parts := parts |}
      end
  end.

Definition getOffset (id : string) : Promise W Offset :=
  await metadata <- catch (_getMetadata id) (fun error => reject FILE_NOT_FOUND) ;;
  catch
    (await parts <- _retrieveParts page_fuel id None ;;
     offset_record id metadata
       (fun _ => Some (if (0 <? Z.of_nat (length parts)) then sum_sizes parts else 0))
       (Some parts))
    (fun error =>
       if negb (bool_decide (error_code error = Some "NoSuchUpload"))
       then reject error
       else
         (* When the last part of an upload is finished and the file is
            successfully written to S3, the upload will no longer be present
            and requesting it will result in a 404.  In that case we return
            the upload_length as size. *)
         offset_record id metadata (fun f => upload_length f) None).

(** [['RequestTimeout', 'NoSuchUpload'].includes(error.code)]. *)
Definition graceful_code (error : Error) : bool :=
  match error_code error with
  | Some c => String.eqb c "RequestTimeout" || String.eqb c "NoSuchUpload"
  | None => false
  end.

(** The promise chain of [write] that follows the coordinator: wait for the
    chunks, read the offset back, complete the upload when it is whole. *)
Definition write_chain (metadata : Session) (file_id : string)
    (promises : list PromiseEntry) : Promise W (option Z) :=
  run settled (Promise_all (map entry_outcome promises)) ;;
  await current_offset <- getOffset file_id ;;
  match file metadata with
  | None => reject (TypeError "Cannot read properties of null (reading 'upload_length')")
  | Some f =>
      if Js.strict_eq (Js.parseInt (upload_length f)) (size current_offset)
      then
        catch
          (run _finishMultipartUpload metadata (parts current_offset) ;;
           run _clearCache file_id ;;
           resolve (size current_offset))
          (fun error => reject error)
      else resolve (size current_offset)
  end.

(** The [.catch] that closes the chain. *)
Definition write_catch (file_id : string) (error : Error) : Promise W (option Z) :=
  if graceful_code error
  then
    await current_offset <- getOffset file_id ;;
    resolve (size current_offset)
  else
    run _clearCache file_id ;;
    reject error.

Definition write (readable : Readable) (file_id : string) : Promise W (option Z) :=
  await metadata <- _getMetadata file_id ;;
  await '(part_number, initial_offset) <- all2 (_countParts file_id) (getOffset file_id) ;;
  let next_part_number := part_number + 1 in
  await promises <-
    _processUpload metadata readable next_part_number (size initial_offset) ;;
  catch (write_chain metadata file_id promises) (write_catch file_id).

(** [declareUploadLength] writes through the [file] object that the cache
    entry holds, and does not wait for the sidecar to be saved. *)
Definition declareUploadLength (file_id : string) (upload_length : Z) : Promise W unit :=
  await metadata <- _getMetadata file_id ;;
  match file metadata with
  | None => reject FILE_NOT_FOUND
  | Some f =>
      let f' :=
        {| id := id f;
           upload_length := Some upload_length;
           upload_defer_length := None;
           upload_metadata := upload_metadata f;
           creation_date := creation_date f |} in
      run write_cache
            (alter (fun entry => mkSession (Some f') (upload_id entry) (attrs entry)) file_id) ;;
      not_awaited (_saveMetadata f' (upload_id metadata))
  end.

End S3Store.

(** ** A scripted object store

    A client in the manner of a test double: every operation answers with
    the next response queued for it, and with an [InternalError] once its
    queue is empty.  It serves to run the store on concrete uploads. *)

Module Scripted.

Record Script : Type := mkScript {
  headBucket_answers : list (Error + option unit);
  createMultipartUpload_answers : list (Error + string);
  putObject_answers : list (Error + unit);
  headObject_answers : list (Error + gmap string string);
  uploadPart_answers : list (Error + string);
  listParts_answers : list (Error + ListPartsOutput);
  completeMultipartUpload_answers : list (Error + string)
}.

Definition exhausted : Error := CodedError "InternalError" (Some 500) "no answer queued".

Definition next {A} (q : list (Error + A)) : (Error + A) * list (Error + A) :=
  match q with
  | [] => (inl exhausted, [])
  | r :: rest => (r, rest)
  end.

Definition scripted_client : S3Client Script :=
  {| headBucket := fun _ w =>
       let '(r, q) := next (headBucket_answers w) in
       (r, mkScript q (createMultipartUpload_answers w) (putObject_answers w)
             (headObject_answers w) (uploadPart_answers w) (listParts_answers w)
             (completeMultipartUpload_answers w));
     createMultipartUpload := fun _ w =>
       let '(r, q) := next (createMultipartUpload_answers w) in
       (r, mkScript (headBucket_answers w) q (putObject_answers w)
             (headObject_answers w) (uploadPart_answers w) (listParts_answers w)
             (completeMultipartUpload_answers w));
     putObject := fun _ w =>
       let '(r, q) := next (putObject_answers w) in
       (r, mkScript (headBucket_answers w) (createMultipartUpload_answers w) q
             (headObject_answers w) (uploadPart_answers w) (listParts_answers w)
             (completeMultipartUpload_answers w));
     headObject := fun _ w =>
       let '(r, q) := next (headObject_answers w) in
       (r, mkScript (headBucket_answers w) (createMultipartUpload_answers w)
             (putObject_answers w) q (uploadPart_answers w) (listParts_answers w)
             (completeMultipartUpload_answers w));
     uploadPart := fun _ w =>
       let '(r, q) := next (uploadPart_answers w) in
       (r, mkScript (headBucket_answers w) (createMultipartUpload_answers w)
             (putObject_answers w) (headObject_answers w) q (listParts_answers w)
             (completeMultipartUpload_answers w));
     listParts := fun _ w =>
       let '(r, q) := next (listParts_answers w) in
       (r, mkScript (headBucket_answers w) (createMultipartUpload_answers w)
             (putObject_answers w) (headObject_answers w) (uploadPart_answers w) q
             (completeMultipartUpload_answers w));
     completeMultipartUpload := fun _ w =>
       let '(r, q) := next (completeMultipartUpload_answers w) in
       (r, mkScript (headBucket_answers w) (createMultipartUpload_answers w)
             (putObject_answers w) (headObject_answers w) (uploadPart_answers w)
             (listParts_answers w) q) |}.

Definition silent : Script := mkScript [] [] [] [] [] [] [].

(** A stand-in for JSON on uploads: the text of an upload is its id, looked
    up in a table; the text [null] parses to a falsy value. *)
Definition stringify (f : File) : string := id f.

Definition parse (table : list File) (text : string) : option (option File) :=
  if String.eqb text "null" then Some None
  else Some <$> List.find (fun f => String.eqb (id f) text) table.

Definition MiB : Z := 1024 * 1024.

Definition config (table : list File) (fuel : nat) : Config Script :=
  {| client := scripted_client;
     bucket_name := "uploads";
     TUS_RESUMABLE := "1.0.0";
     JSON_stringify := stringify;
     JSON_parse := parse table;
     base64_to_ascii := fun s => s;
     page_fuel := fuel |}.

(** An upload of 20 MiB, and the same upload with its length deferred. *)
Definition movie : File := mkFile "movie" (Some (20 * MiB)) None None None.
Definition deferred : File := mkFile "deferred" None (Some 1) None None.

Definition session_of (f : File) : Session := mkSession (Some f) (Some "mpu-1") ∅.

Definition store (entries : list (string * Session)) (w : Script) : Store Script :=
  mkStore (list_to_map entries) w [].

Definition NoSuchUpload : Error :=
  CodedError "NoSuchUpload" (Some 404) "The specified upload does not exist.".


Definition page (ps : list Part) (next : option Z) : Error + ListPartsOutput :=
  inr (mkListPartsOutput ps next).

Definition part (n size : Z) : Part := mkPart n size "etag".

End Scripted.

(** ** Pages of [listParts], described on their own *)

Section Pages.

Context {W : Type} {this : Config W}.

(** The request [_retrieveParts] sends for a marker. *)
Definition page_request (upload_id : option string) (file_id : string)
    (marker : option Z) : ListPartsRequest :=
  {| lp_Bucket := bucket_name;
     lp_Key := file_id;
     lp_UploadId := upload_id;
     lp_PartNumberMarker := if Js.truthy_number marker then marker else None |}.

(** [listed uid file_id n marker w js l w']: starting from [marker] in
    object-store state [w], [listParts] answers [n] pages, each but the last
    with a continuation marker that the next request passes on; [l] is the
    pages' parts put end to end, [js] the requests made and [w'] the state
    the object store is left in. *)
Inductive listed (uid : option string) (file_id : string)
  : nat -> option Z -> W -> list Call -> list Part -> W -> Prop :=
| listed_last marker w data w' :
    listParts client (page_request uid file_id marker) w = (inr data, w') ->
    Js.truthy_number (NextPartNumberMarker data) = false ->
    listed uid file_id 1 marker w
      [ListParts (page_request uid file_id marker)] (Parts data) w'
| listed_more n marker w data w1 js l w' :
    listParts client (page_request uid file_id marker) w = (inr data, w1) ->
    Js.truthy_number (NextPartNumberMarker data) = true ->
    listed uid file_id n (NextPartNumberMarker data) w1 js l w' ->
    listed uid file_id (S n) marker w
      (ListParts (page_request uid file_id marker) :: js) (Parts data ++ l) w'.

(** [pages_end uid file_id n marker w]: the pagination that starts from
    [marker] stops within [n] requests, at an error or at a page without a
    continuation marker. *)
Inductive pages_end (uid : option string) (file_id : string)
  : nat -> option Z -> W -> Prop :=
| pages_end_error marker w e w' :
    listParts client (page_request uid file_id marker) w = (inl e, w') ->
    pages_end uid file_id 1 marker w
| pages_end_last marker w data w' :
    listParts client (page_request uid file_id marker) w = (inr data, w') ->
    Js.truthy_number (NextPartNumberMarker data) = false ->
    pages_end uid file_id 1 marker w
| pages_end_more n marker w data w1 :
    listParts client (page_request uid file_id marker) w = (inr data, w1) ->
    Js.truthy_number (NextPartNumberMarker data) = true ->
    pages_end uid file_id n (NextPartNumberMarker data) w1 ->
    pages_end uid file_id (S n) marker w.

End Pages.

(** ** The coordinator, described on its own *)

(** A size that is a number and is the declared length; a chunk is final
    when the cumulative size it brings about is. *)
Definition equals_upload_length (f : File) (cumulative : option Z) : Prop :=
  exists n, upload_length f = Some n /\ cumulative = Some n.

(** The chunks a stream finishes, in the order their events are emitted. *)
Fixpoint finished (evs : list SplitterEvent) : list (string * Z) :=
  match evs with
  | [] => []
  | chunkFinished path size :: rest => (path, size) :: finished rest
  | chunkStarted _ :: rest => finished rest
  end.



(** The request that uploads a chunk file as a part. *)
Definition part_request {W : Type} {this : Config W} (metadata : Session) (f : File)
    (partNumber : Z) (path : string) : UploadPartRequest :=
  {| up_Bucket := bucket_name;
     up_Key := id f;
     up_UploadId := upload_id metadata;
     up_PartNumber := partNumber;
     up_Body := path |}.

(** ** Requests, described on their own *)

Section Requests.

Context {W : Type} {this : Config W}.

(** The error [_bucketExists] throws in place of the one it caught. *)
Definition bucket_failure (e : Error) : Error :=
  if decide (error_statusCode e = Some 404)
  then new_Error ("[S3Store] bucket " +:+ quoted bucket_name +:+ " does not exist")
  else new_Error (error_to_string e).

(** The upload with its length declared. *)
Definition with_length (f : File) (length : Z) : File :=
  {| id := id f;
     upload_length := Some length;
     upload_defer_length := None;
     upload_metadata := upload_metadata f;
     creation_date := creation_date f |}.

Definition sidecar_key (file_id : string) : HeadObjectRequest :=
  {| ho_Bucket := bucket_name; ho_Key := file_id +:+ ".info" |}.

(** The sidecar of an upload: an empty object whose user metadata holds the
    upload as JSON, the multipart upload's id and the protocol version. *)
Definition sidecar_request (f : File) (upload_id : option string) : PutObjectRequest :=
  {| po_Bucket := bucket_name;
     po_Key := id f +:+ ".info";
     po_Body := "";
     po_Metadata := {| im_file := JSON_stringify f;
                       im_upload_id := upload_id;
                       im_tus_version := TUS_RESUMABLE |} |}.

Definition multipart_request (f : File) : CreateMultipartUploadRequest :=
  {| cmu_Bucket := bucket_name;
     cmu_Key := id f;
     cmu_Metadata :=
       {| mm_tus_version := TUS_RESUMABLE;
          mm_upload_length := upload_length f;
          mm_upload_defer_length := upload_defer_length f;
          mm_upload_metadata := upload_metadata f;
          mm_original_name :=
            v ← _parseMetadataString (upload_metadata f) !! "filename"; encoded v |};
     cmu_ContentType :=
       v ← _parseMetadataString (upload_metadata f) !! "contentType"; decoded v |}.


End Requests.

(** ** Steps that keep the cache and complete nothing *)

Definition is_completion (c : Call) : bool :=
  match c with
  | CompleteMultipartUpload _ => true
  | _ => false
  end.

(** From [st] to [st'] every cache entry stays in place (refreshed, maybe)
    and the journal grows by requests none of which completes an upload. *)
Definition steady {W : Type} (st st' : Store W) : Prop :=
  (forall k, is_Some (cache st !! k) -> is_Some (cache st' !! k))
  /\ exists js, calls st' = calls st ++ js /\ Forall (fun c => is_completion c = false) js.

Definition steady_promise {W A : Type} (p : Promise W A) : Prop :=
  forall st, steady st (snd (p st)).

(** The sum of the sizes, written as a recursion over the list. *)
Fixpoint total_size (ps : list Part) : Z :=
  match ps with
  | [] => 0
  | p :: rest => Size p + total_size rest
  end.


(** The store with the cache entry of [file_id] removed. *)
Definition cleared {W : Type} (file_id : string) (st : Store W) : Store W :=
  mkStore (delete file_id (cache st)) (s3 st) (calls st).

(** ** The tus metadata string, written out *)

(** [free_of c s]: the character [c] does not occur in [s]. *)
Fixpoint free_of (c : ascii) (s : string) : bool :=
  match s with
  | EmptyString => true
  | String a rest => negb (Ascii.eqb a c) && free_of c rest
  end.

(** [ws.join(sep)]. *)
Fixpoint join (sep : string) (ws : list string) : string :=
  match ws with
  | [] => ""
  | [w] => w
  | w :: rest => w +:+ sep +:+ join sep rest
  end.

(** An entry of the [Upload-Metadata] header: a key, and a base64 value
    unless the key stands alone. *)
Definition render_entry (e : string * option string) : string :=
  match e with
  | (key, Some base64_value) => key +:+ " " +:+ base64_value
  | (key, None) => key
  end.

Definition render_metadata (entries : list (string * option string)) : string :=
  join "," (map render_entry entries).

(** Keys and values that hold neither a comma nor a space. *)
Definition plain_entry (e : string * option string) : bool :=
  free_of "," (fst e) && free_of " " (fst e)
  && match snd e with
     | Some v => free_of "," v && free_of " " v
     | None => true
     end.

(** What an entry parses to. *)
Definition parsed_entry {W : Type} {this : Config W} (v : option string) : MetadataValue :=
  {| encoded := v; decoded := base64_to_ascii <$> v |}.

(** ** The sidecar, as the object store hands it back *)

(** The user metadata of a sidecar written with [m]: the fields of [m] under
    their names, the multipart upload id under [id_key], which is
    [upload_id] on AWS and [upload-id] on DigitalOcean Spaces. *)
Definition user_metadata (id_key : string) (m : InfoMetadata) : gmap string string :=
  let fields : gmap string string :=
    {[ "file" := im_file m; "tus_version" := im_tus_version m ]} in
  match im_upload_id m with
  | Some u => <[id_key := u]> fields
  | None => fields
  end.

(** ** The journal of a coordinator run, read back *)

(** The chunk files removed, in the order of their removal. *)
Fixpoint removed (js : list Call) : list string :=
  match js with
  | [] => []
  | FsRm path :: rest => path :: removed rest
  | _ :: rest => removed rest
  end.

(** The [uploadPart] requests made, in order. *)
Fixpoint uploads (js : list Call) : list UploadPartRequest :=
  match js with
  | [] => []
  | UploadPart r :: rest => r :: uploads rest
  | _ :: rest => uploads rest
  end.

(** The chunk file that is open once the events have been handled. *)
Fixpoint pending_after (pending : option string) (evs : list SplitterEvent)
  : option string :=
  match evs with
  | [] => pending
  | chunkStarted filepath :: rest => pending_after (Some filepath) rest
  | chunkFinished _ _ :: rest => pending_after None rest
  end.

(** The requests that the small-tail policy lets through, for chunks
    numbered from [start] on top of a cumulative size. *)
Fixpoint expected_uploads {W : Type} {this : Config W} (metadata : Session) (f : File)
    (start : Z) (cumulative : option Z) (chunks : list (string * Z))
  : list UploadPartRequest :=
  match chunks with
  | [] => []
  | (path, size) :: rest =>
      let cumulative' := Js.add cumulative size in
      let later := expected_uploads metadata f (start + 1) cumulative' rest in
      if negb (Js.strict_eq (Js.parseInt (upload_length f)) cumulative')
         && (size <? 5 * 1024 * 1024)
      then later
      else part_request metadata f start path :: later
  end.

(** A cumulative size at or past the declared length, or no number on
    either side: no later chunk of positive size can be final. *)
Definition past_length (f : File) (cumulative : option Z) : Prop :=
  match upload_length f, cumulative with
  | Some l, Some s => l <= s
  | _, _ => True
  end.

(** ** Journals of one kind *)

(** The requests that only read: [headObject] and [listParts]. *)
Definition is_read (c : Call) : bool :=
  match c with
  | HeadObject _ | ListParts _ => true
  | _ => false
  end.

(** [journals P p]: whatever the store it starts from, [p] adds to the
    journal only calls that satisfy [P]. *)
Definition journals {W A : Type} (P : Call -> bool) (p : Promise W A) : Prop :=
  forall st, exists js,
    calls (snd (p st)) = calls st ++ js /\ Forall (fun c => P c = true) js.

(** ** Samples for runs on the scripted store *)

Module Samples.

(** A decoder that knows two base64 texts. *)
Definition decode (s : string) : string :=
  if String.eqb s "dmlkZW8vbXA0" then "video/mp4"
  else if String.eqb s "bW92aWUubXA0" then "movie.mp4"
  else "".

Definition config : Config Scripted.Script :=
  {| client := Scripted.scripted_client;
     bucket_name := "uploads";
     TUS_RESUMABLE := "1.0.0";
     JSON_stringify := Scripted.stringify;
     JSON_parse := Scripted.parse [Scripted.movie; Scripted.deferred];
     base64_to_ascii := decode;
     page_fuel := 2 |}.

Definition entries : list (string * option string) :=
  [("filename", Some "bW92aWUubXA0");
   ("contentType", Some "dmlkZW8vbXA0");
   ("is_confidential", None)].

Definition header : string :=
  "filename bW92aWUubXA0,contentType dmlkZW8vbXA0,is_confidential".

Definition clip : File := mkFile "clip" (Some 100) None (Some header) None.

End Samples.

(** * Properties *)

(** ** Sorting and the contiguous prefix *)

Definition pn_lt (p q : Part) : Prop := PartNumber p < PartNumber q.
Definition pn_le (p q : Part) : Prop := PartNumber p <= PartNumber q.

Lemma insert_part_perm p l : Permutation (p :: l) (insert_part p l).
Proof.
  induction l as [|q l IH]; simpl; [done|].
  destruct (PartNumber p <=? PartNumber q); [done|].
  rewrite perm_swap. by constructor.
Qed.

Lemma sort_parts_perm l : Permutation l (sort_parts l).
Proof.
  induction l as [|p l IH]; simpl; [done|].
  rewrite <- insert_part_perm. by constructor.
Qed.

Lemma insert_part_sorted p l :
  StronglySorted pn_le l -> StronglySorted pn_le (insert_part p l).
Proof.
  induction 1 as [|q l Hs IH Hq]; simpl.
  - repeat constructor.
  - destruct (Z.leb_spec (PartNumber p) (PartNumber q)) as [Hle|Hgt].
    + constructor; [by constructor|].
      constructor; [done|].
      eapply Forall_impl; [exact Hq|]. unfold pn_le. intros; simpl in *; lia.
    + constructor; [done|].
      rewrite <- insert_part_perm. constructor; [|done]. unfold pn_le. lia.
Qed.

Lemma sort_parts_sorted l : StronglySorted pn_le (sort_parts l).
Proof.
  induction l as [|p l IH]; simpl; [constructor|]. by apply insert_part_sorted.
Qed.

(** Without repeated part numbers the order is strict. *)
Lemma sorted_nodup_strict l :
  StronglySorted pn_le l -> NoDup (map PartNumber l) -> StronglySorted pn_lt l.
Proof.
  induction 1 as [|q l Hs IH Hq]; simpl; intros Hnd; [constructor|].
  apply NoDup_cons in Hnd as [Hnotin Hnd].
  constructor; [by apply IH|].
  rewrite Forall_forall in Hq |- *. intros x Hx.
  specialize (Hq x Hx). unfold pn_le, pn_lt in *.
  destruct (decide (PartNumber q = PartNumber x)) as [Heq|]; [|lia].
  exfalso. apply Hnotin. rewrite Heq. by apply list_elem_of_fmap_2.
Qed.

Lemma sort_parts_strict l :
  NoDup (map PartNumber l) -> StronglySorted pn_lt (sort_parts l).
Proof.
  intros Hnd. apply sorted_nodup_strict; [apply sort_parts_sorted|].
  by rewrite <- (sort_parts_perm l).
Qed.





(** ** Promises, step by step *)

Section Steps.

Context {W : Type}.

Lemma andThen_resolved {A B} (p : Promise W A) (k : A -> Promise W B) st a st' :
  p st = (Resolved a, st') -> andThen p k st = k a st'.
Proof. unfold andThen. by intros ->. Qed.

Lemma andThen_rejected {A B} (p : Promise W A) (k : A -> Promise W B) st e st' :
  p st = (Rejected e, st') -> andThen p k st = (Rejected e, st').
Proof. unfold andThen. by intros ->. Qed.

Lemma andThen_pending {A B} (p : Promise W A) (k : A -> Promise W B) st st' :
  p st = (Pending, st') -> andThen p k st = (Pending, st').
Proof. unfold andThen. by intros ->. Qed.

Lemma catch_resolved {A} (p : Promise W A) h st a st' :
  p st = (Resolved a, st') -> catch p h st = (Resolved a, st').
Proof. unfold catch. by intros ->. Qed.

Lemma catch_rejected {A} (p : Promise W A) h st e st' :
  p st = (Rejected e, st') -> catch p h st = h e st'.
Proof. unfold catch. by intros ->. Qed.

Lemma catch_pending {A} (p : Promise W A) h st st' :
  p st = (Pending, st') -> catch p h st = (Pending, st').
Proof. unfold catch. by intros ->. Qed.

(** Rethrowing handlers change nothing. *)
Lemma catch_rethrow {A} (p : Promise W A) st :
  catch p (fun error => reject error) st = p st.
Proof. unfold catch, reject. by destruct (p st) as [[a|e|] st']. Qed.

Lemma request_answer {A} (c : Call) (op : W -> (Error + A) * W) st :
  request c op st =
    (match fst (op (s3 st)) with inl e => Rejected e | inr a => Resolved a end,
     mkStore (cache st) (snd (op (s3 st))) (calls st ++ [c])).
Proof. unfold request. by destruct (op (s3 st)) as [[e|a] w']. Qed.

End Steps.

(** ** [_retrieveParts] *)

Section RetrieveParts.

Context {W : Type} {this : Config W}.

(** Listing parts never touches the cache. *)
Lemma retrieveParts_cache fuel file_id marker (st : Store W) :
  cache (snd (_retrieveParts fuel file_id marker st)) = cache st.
Proof.
  revert marker st. induction fuel as [|fuel IH]; intros marker st; simpl; [done|].
  unfold andThen at 1. simpl.
  destruct (cache st !! file_id) as [entry|]; [|done].
  unfold andThen at 1. unfold andThen at 1. rewrite request_answer.
  match goal with |- context [listParts client ?r ?w] =>
    destruct (listParts client r w) as [[e|data] w1] end; simpl; [done|].
  destruct (Js.truthy_number (NextPartNumberMarker data)).
  - unfold andThen at 1.
    match goal with |- context [_retrieveParts fuel file_id ?m ?s] =>
      specialize (IH m s); destruct (_retrieveParts fuel file_id m s) as [[val|e|] st2]
    end; simpl in *; try done; by destruct marker.
  - simpl. by destruct marker.
Qed.

(** Following the pages gives their parts put end to end; the outermost call
    sorts and filters them. *)
Lemma retrieveParts_pages entry file_id n marker js l w' :
  forall fuel (st : Store W),
    cache st !! file_id = Some entry ->
    listed (upload_id entry) file_id n marker (s3 st) js l w' ->
    (n <= fuel)%nat ->
    _retrieveParts fuel file_id marker st =
      (Resolved match marker with
                | None => filter_index (sort_parts l)
                | Some _ => l
                end,
       mkStore (cache st) w' (calls st ++ js)).
Proof.
  intros fuel st Hc Hl Hfuel.
  remember (s3 st) as w eqn:Hw. revert fuel st Hc Hw Hfuel.
  induction Hl as [marker w data w' Hlist Hlast
                  |n marker w data w1 js l w' Hlist Hmore Hl IH];
    intros fuel st Hc -> Hfuel.
  - destruct fuel as [|fuel]; [lia|]. simpl.
    unfold andThen at 1. simpl. rewrite Hc.
    unfold andThen at 1. unfold andThen at 1. rewrite request_answer.
    fold (page_request (upload_id entry) file_id marker). rewrite Hlist. simpl.
    rewrite Hlast. simpl. by destruct marker.
  - destruct fuel as [|fuel]; [lia|]. simpl.
    unfold andThen at 1. simpl. rewrite Hc.
    unfold andThen at 1. unfold andThen at 1. rewrite request_answer.
    fold (page_request (upload_id entry) file_id marker). rewrite Hlist. simpl.
    rewrite Hmore. unfold andThen at 1.
    rewrite (IH fuel) by (simpl; (done || lia)).
    destruct (NextPartNumberMarker data) as [m|] eqn:Hm; [|done].
    simpl. rewrite <- app_assoc. by destruct marker.
Qed.

(** With fuel for the pages there are, the promise settles. *)
Lemma retrieveParts_settles entry file_id n marker :
  forall fuel (st : Store W),
    cache st !! file_id = Some entry ->
    pages_end (upload_id entry) file_id n marker (s3 st) ->
    (n <= fuel)%nat ->
    fst (_retrieveParts fuel file_id marker st) <> Pending.
Proof.
  intros fuel st Hc Hp Hfuel.
  remember (s3 st) as w eqn:Hw. revert fuel st Hc Hw Hfuel.
  induction Hp as [marker w e w' Hlist
                  |marker w data w' Hlist Hlast
                  |n marker w data w1 Hlist Hmore Hp IH];
    intros fuel st Hc -> Hfuel; (destruct fuel as [|fuel]; [lia|]); simpl;
    unfold andThen at 1; simpl; rewrite Hc;
    unfold andThen at 1; unfold andThen at 1; rewrite request_answer;
    fold (page_request (upload_id entry) file_id marker); rewrite Hlist; simpl.
  - done.
  - rewrite Hlast. simpl. by destruct marker.
  - rewrite Hmore. unfold andThen at 1.
    match goal with |- context [_retrieveParts fuel file_id ?m ?s] =>
      specialize (IH fuel s); destruct (_retrieveParts fuel file_id m s) as [[val|e|] st2]
    end; simpl in *.
    + by destruct marker.
    + done.
    + exfalso. apply IH; [done|done|lia|done].
Qed.

End RetrieveParts.

(** The scripted store answers at most one page per queued answer, so its
    pagination always stops. *)
Lemma scripted_pages_end table fuel uid file_id :
  forall (w : Scripted.Script) marker,
    exists n,
      (n <= S (length (Scripted.listParts_answers w)))%nat
      /\ pages_end (this := Scripted.config table fuel) uid file_id n marker w.
Proof.
  intros [hb cm po ho up lp co]. simpl.
  induction lp as [|answer lp IH]; intros marker.
  - exists 1%nat. split; [simpl; lia|].
    by eapply (pages_end_error (this := Scripted.config table fuel)).
  - destruct answer as [e|data].
    + exists 1%nat. split; [simpl; lia|].
      by eapply (pages_end_error (this := Scripted.config table fuel)).
    + destruct (Js.truthy_number (NextPartNumberMarker data)) eqn:Hnext.
      * destruct (IH (NextPartNumberMarker data)) as (n & Hn & Hend).
        exists (S n). split; [simpl; lia|].
        by eapply (pages_end_more (this := Scripted.config table fuel)).
      * exists 1%nat. split; [simpl; lia|].
        by eapply (pages_end_last (this := Scripted.config table fuel)).
Qed.

Section RetrievePartsContiguous.

Context {W : Type} {this : Config W}.


End RetrievePartsContiguous.



(** ** The part coordinator *)

Section PartCoordinator.

Context {W : Type} {this : Config W}.

Lemma strict_eq_final f cumulative :
  Js.strict_eq (Js.parseInt (upload_length f)) cumulative = true <-> equals_upload_length f cumulative.
Proof.
  unfold Js.strict_eq, Js.parseInt, equals_upload_length. split.
  - destruct (upload_length f) as [n|], cumulative as [m|]; try done.
    intros ->%Z.eqb_eq. eauto.
  - intros (n & -> & ->). apply Z.eqb_refl.
Qed.

(** A chunk that is skipped: its file is removed and nothing else happens. *)
Lemma chunk_promise_skipped metadata f path size partNumber cumulative (st : Store W) :
  file metadata = Some f ->
  ~ equals_upload_length f cumulative ->
  size < 5 * 1024 * 1024 ->
  chunk_promise metadata path size partNumber cumulative st
    = (Resolved None, record_call (FsRm path) st).
Proof.
  intros Hf Hnot Hsmall. unfold chunk_promise, finally. rewrite Hf.
  destruct (Js.strict_eq _ _) eqn:Heq; [by apply strict_eq_final in Heq|].
  apply Z.ltb_lt in Hsmall. by rewrite Hsmall.
Qed.

(** A chunk that is uploaded: one [uploadPart] request, then the removal. *)
Lemma chunk_promise_uploaded metadata f path size partNumber cumulative (st : Store W) :
  file metadata = Some f ->
  equals_upload_length f cumulative \/ 5 * 1024 * 1024 <= size ->
  let r := part_request metadata f partNumber path in
  chunk_promise metadata path size partNumber cumulative st
    = (match fst (uploadPart client r (s3 st)) with
       | inl e => Rejected e
       | inr etag => Resolved (Some etag)
       end,
       mkStore (cache st) (snd (uploadPart client r (s3 st)))
         (calls st ++ [UploadPart r; FsRm path])).
Proof.
  intros Hf Hup r. unfold chunk_promise, finally. rewrite Hf.
  assert (Hcond : negb (Js.strict_eq (Js.parseInt (upload_length f)) cumulative)
                  && (size <? 5 * 1024 * 1024) = false).
  { destruct Hup as [Hfin|Hbig].
    - apply strict_eq_final in Hfin. by rewrite Hfin.
    - apply Z.ltb_ge in Hbig. rewrite Hbig. apply andb_false_r. }
  rewrite Hcond. unfold andThen, _uploadPart. rewrite Hf.
  fold (part_request metadata f partNumber path). fold r.
  rewrite request_answer.
  destruct (uploadPart client r (s3 st)) as [[e|etag] w1]; simpl;
    unfold record_call; simpl; by rewrite <- app_assoc.
Qed.

(** C2.  On every [chunkFinished] the coordinator adds the chunk's size to
    the cumulative size and takes the next part number.  If the cumulative
    size does not equal [upload_length] and the chunk is smaller than 5 MiB,
    no [uploadPart] request is made and the chunk file is removed; otherwise
    (the chunk is final, or it holds at least 5 MiB) the chunk is uploaded
    as an S3 part under that part number and the file is removed once the
    upload has settled.  So a final chunk smaller than 5 MiB is uploaded. *)
Theorem chunkFinished_small_tail_policy
    (metadata : Session) (f : File) (path : string) (size : Z)
    (c : Coordinator) (st : Store W) :
  file metadata = Some f ->
  let cumulative := Js.add (current_size c) size in
  let r := part_request metadata f (currentPartNumber c) path in
  let answer := uploadPart client r (s3 st) in
  let after outcome :=
    mkCoordinator None cumulative (currentPartNumber c + 1)
      (promises c ++ [ChunkPromise (currentPartNumber c) path size outcome]) in
  (~ equals_upload_length f cumulative /\ size < 5 * 1024 * 1024 ->
     on_event metadata (chunkFinished path size) c st
       = (after (Resolved None),
          mkStore (cache st) (s3 st) (calls st ++ [FsRm path])))
  /\ (equals_upload_length f cumulative \/ 5 * 1024 * 1024 <= size ->
     on_event metadata (chunkFinished path size) c st
       = (after match fst answer with
                | inl e => Rejected e
                | inr etag => Resolved (Some etag)
                end,
          mkStore (cache st) (snd answer) (calls st ++ [UploadPart r; FsRm path])))
  /\ (equals_upload_length f cumulative -> size < 5 * 1024 * 1024 ->
     calls (snd (on_event metadata (chunkFinished path size) c st))
       = calls st ++ [UploadPart r; FsRm path]).
Proof.
  intros Hf cumulative r answer after.
  assert (Hup : equals_upload_length f cumulative \/ 5 * 1024 * 1024 <= size ->
     on_event metadata (chunkFinished path size) c st
       = (after match fst answer with
                | inl e => Rejected e
                | inr etag => Resolved (Some etag)
                end,
          mkStore (cache st) (snd answer) (calls st ++ [UploadPart r; FsRm path]))).
  { intros Hcase. unfold on_event.
    by rewrite (chunk_promise_uploaded metadata f path size _ _ st Hf Hcase). }
  split; [|split; [exact Hup|]].
  - intros [Hnot Hsmall]. unfold on_event.
    by rewrite (chunk_promise_skipped metadata f path size _ _ st Hf Hnot Hsmall).
  - intros Hfin _. by rewrite Hup by (by left).
Qed.

End PartCoordinator.

(** The final tail on a run: 16 MiB of a 20 MiB upload are in place, and
    the chunk of 4 MiB that completes it is sent as part 3. *)
Lemma chunkFinished_small_tail_policy_witness :
  let metadata := Scripted.session_of Scripted.movie in
  let c := mkCoordinator (Some "/tmp/c") (Some (16 * Scripted.MiB)) 3 [] in
  let st := Scripted.store [("movie", metadata)]
              (Scripted.mkScript [] [] [] [] [inr "etag-3"] [] []) in
  calls (snd (on_event (this := Scripted.config [] 1) metadata
                (chunkFinished "/tmp/c" (4 * Scripted.MiB)) c st))
    = [UploadPart (mkUploadPartRequest "uploads" "movie" (Some "mpu-1") 3 "/tmp/c");
       FsRm "/tmp/c"].
Proof.
  intros metadata c st.
  destruct (chunkFinished_small_tail_policy (this := Scripted.config [] 1)
              metadata Scripted.movie "/tmp/c" (4 * Scripted.MiB) c st eq_refl)
    as (_ & _ & Hfinal).
  apply Hfinal.
  - exists (20 * Scripted.MiB). split; reflexivity.
  - reflexivity.
Defined.

Section DeferredLength.

Context {W : Type} {this : Config W}.

(** C10.  While [upload_length] is undefined, parsing it gives [NaN], the
    final-chunk test holds for no cumulative size, and every finished chunk
    smaller than 5 MiB is dropped: its file is removed and no [uploadPart]
    request is made, whatever the coordinator has counted so far. *)
Theorem deferred_length_drops_small_chunks
    (metadata : Session) (f : File) (path : string) (size : Z)
    (c : Coordinator) (st : Store W) :
  file metadata = Some f ->
  upload_length f = None ->
  size < 5 * 1024 * 1024 ->
  (forall cumulative,
     Js.strict_eq (Js.parseInt (upload_length f)) cumulative = false)
  /\ on_event metadata (chunkFinished path size) c st
     = (mkCoordinator None (Js.add (current_size c) size) (currentPartNumber c + 1)
          (promises c ++ [ChunkPromise (currentPartNumber c) path size (Resolved None)]),
        mkStore (cache st) (s3 st) (calls st ++ [FsRm path])).
Proof.
  intros Hf Hlen Hsmall. split.
  - intros cumulative. by rewrite Hlen.
  - unfold on_event. rewrite (chunk_promise_skipped metadata f); try done.
    intros (n & Hn & _). congruence.
Qed.

End DeferredLength.

(** A deferred-length upload that has already counted 7 MiB: a further chunk
    of 3 MiB is dropped. *)
Lemma deferred_length_drops_small_chunks_witness :
  let metadata := Scripted.session_of Scripted.deferred in
  let c := mkCoordinator (Some "/tmp/d") (Some (7 * Scripted.MiB)) 2 [] in
  let st := Scripted.store [("deferred", metadata)]
              (Scripted.mkScript [] [] [] [] [inr "etag-2"] [] []) in
  snd (on_event (this := Scripted.config [] 1) metadata
         (chunkFinished "/tmp/d" (3 * Scripted.MiB)) c st)
    = mkStore (cache st) (s3 st) [FsRm "/tmp/d"].
Proof.
  intros metadata c st.
  destruct (deferred_length_drops_small_chunks (this := Scripted.config [] 1)
              metadata Scripted.deferred "/tmp/d" (3 * Scripted.MiB) c st
              eq_refl eq_refl eq_refl) as [_ Hrun].
  rewrite Hrun. reflexivity.
Defined.

(** ** Part numbers within one [write] *)

Section PartNumbers.

Context {W : Type} {this : Config W}.






End PartNumbers.


(** ** Steady steps *)

Section Steady.

Context {W : Type} {this : Config W}.

Lemma steady_refl (st : Store W) : steady st st.
Proof.
  split; [done|]. exists []. split; [by rewrite app_nil_r|constructor].
Qed.

Lemma steady_trans (st1 st2 st3 : Store W) :
  steady st1 st2 -> steady st2 st3 -> steady st1 st3.
Proof.
  intros [Hk1 (js1 & Hj1 & Hf1)] [Hk2 (js2 & Hj2 & Hf2)]. split; [by auto|].
  exists (js1 ++ js2). split; [by rewrite Hj2, Hj1, app_assoc|by apply Forall_app].
Qed.

Lemma steady_journal (st : Store W) c :
  is_completion c = false -> steady st (mkStore (cache st) (s3 st) (calls st ++ [c])).
Proof.
  intros Hc. split; [done|]. exists [c]. split; [done|by constructor].
Qed.

Lemma steady_resolve {A} (a : A) : steady_promise (W := W) (resolve a).
Proof. intros st. apply steady_refl. Qed.

Lemma steady_reject {A} e : steady_promise (W := W) (A := A) (reject e).
Proof. intros st. apply steady_refl. Qed.

Lemma steady_settled {A} (o : Outcome A) : steady_promise (W := W) (settled o).
Proof. intros st. apply steady_refl. Qed.

Lemma steady_read_cache : steady_promise (W := W) read_cache.
Proof. intros st. apply steady_refl. Qed.

Lemma steady_request {A} c (op : W -> (Error + A) * W) :
  is_completion c = false -> steady_promise (request c op).
Proof.
  intros Hc st. rewrite request_answer. simpl.
  split; [done|]. exists [c]. split; [done|by constructor].
Qed.

Lemma steady_insert k v : steady_promise (W := W) (write_cache (insert k v)).
Proof.
  intros st. simpl. split.
  - intros k' Hk'. simpl. destruct (decide (k = k')) as [->|Hne].
    + rewrite lookup_insert_eq. eauto.
    + by rewrite lookup_insert_ne.
  - exists []. simpl. split; [by rewrite app_nil_r|constructor].
Qed.

Lemma steady_andThen {A B} (p : Promise W A) (k : A -> Promise W B) :
  steady_promise p -> (forall a, steady_promise (k a)) -> steady_promise (andThen p k).
Proof.
  intros Hp Hk st. unfold andThen. specialize (Hp st).
  destruct (p st) as [[a|e|] st1]; simpl in *; [|done|done].
  eapply steady_trans; [exact Hp|apply Hk].
Qed.

Lemma steady_catch {A} (p : Promise W A) h :
  steady_promise p -> (forall e, steady_promise (h e)) -> steady_promise (catch p h).
Proof.
  intros Hp Hh st. unfold catch. specialize (Hp st).
  destruct (p st) as [[a|e|] st1]; simpl in *; [done| |done].
  eapply steady_trans; [exact Hp|apply Hh].
Qed.

Lemma steady_finally {A} (p : Promise W A) c :
  steady_promise p -> is_completion c = false -> steady_promise (finally p (record_call c)).
Proof.
  intros Hp Hc st. unfold finally. specialize (Hp st).
  destruct (p st) as [[a|e|] st1]; simpl in *; [| |done];
    (eapply steady_trans; [exact Hp|by apply steady_journal]).
Qed.

Lemma steady_all2 {A B} (a : Promise W A) (b : Promise W B) :
  steady_promise a -> steady_promise b -> steady_promise (all2 a b).
Proof.
  intros Ha Hb st. unfold all2. specialize (Ha st).
  destruct (a st) as [ra st1]. specialize (Hb st1).
  destruct (b st1) as [rb st2]. simpl in *.
  assert (steady st st2) by by eapply steady_trans.
  by destruct ra, rb.
Qed.

Create HintDb steady discriminated.

Hint Resolve steady_resolve steady_reject steady_settled steady_read_cache
  steady_insert : steady.
Hint Extern 2 (steady_promise (request _ _)) =>
  apply steady_request; reflexivity : steady.
Hint Extern 3 (steady_promise (andThen _ _)) =>
  apply steady_andThen; [|intros ?] : steady.
Hint Extern 3 (steady_promise (catch _ _)) =>
  apply steady_catch; [|intros ?] : steady.
Hint Extern 3 (steady_promise (finally _ (record_call _))) =>
  apply steady_finally; [|reflexivity] : steady.
Hint Extern 3 (steady_promise (all2 _ _)) => apply steady_all2 : steady.
Hint Extern 4 (steady_promise (match ?x with _ => _ end)) => destruct x : steady.
Hint Extern 4 (steady_promise (if ?x then _ else _)) => destruct x : steady.

Lemma steady_getMetadata file_id : steady_promise (_getMetadata file_id).
Proof. unfold _getMetadata. auto 20 with steady. Qed.

Lemma steady_retrieveParts fuel file_id marker :
  steady_promise (_retrieveParts fuel file_id marker).
Proof.
  revert marker. induction fuel as [|fuel IH]; intros marker; simpl;
    auto 20 with steady.
Qed.

Hint Resolve steady_getMetadata steady_retrieveParts : steady.

Lemma steady_countParts file_id : steady_promise (_countParts file_id).
Proof. unfold _countParts. auto 20 with steady. Qed.

Lemma steady_getOffset file_id : steady_promise (getOffset file_id).
Proof. unfold getOffset, offset_record. auto 20 with steady. Qed.

Lemma steady_chunk_promise metadata path size partNumber cumulative :
  steady_promise (chunk_promise metadata path size partNumber cumulative).
Proof. unfold chunk_promise, _uploadPart. auto 20 with steady. Qed.

Lemma steady_on_events metadata evs :
  forall c (st : Store W), steady st (snd (on_events metadata evs c st)).
Proof.
  induction evs as [|ev evs IH]; intros c st; simpl; [apply steady_refl|].
  destruct ev as [filepath|path size]; simpl; [apply IH|].
  pose proof (steady_chunk_promise metadata path size (currentPartNumber c)
                (Js.add (current_size c) size) st) as Hstep.
  destruct (chunk_promise _ _ _ _ _ st) as [outcome st1]. simpl in Hstep.
  eapply steady_trans; [exact Hstep|apply IH].
Qed.

Lemma steady_processUpload metadata readable start initial :
  steady_promise (_processUpload metadata readable start initial).
Proof.
  intros st. unfold _processUpload.
  pose proof (steady_on_events metadata (events readable)
                (mkCoordinator None initial start []) st) as Hev.
  destruct (on_events _ _ _ st) as [c st1]. simpl in *.
  unfold on_pipeline_done.
  destruct (pipelineErr readable) as [e|]; [|done].
  destruct (pendingChunkFilepath c) as [pending|]; [|done]. simpl.
  eapply steady_trans; [exact Hev|by apply steady_journal].
Qed.

End Steady.

(** ** The metadata store *)

Section Metadata.

Context {W : Type} {this : Config W}.

Lemma getMetadata_hit file_id (st : Store W) entry f :
  cache st !! file_id = Some entry ->
  file entry = Some f ->
  _getMetadata file_id st = (Resolved entry, st).
Proof.
  intros Hc Hf. unfold _getMetadata, andThen. simpl. rewrite Hc.
  destruct entry as [[f'|] u a]; simpl in *; [done|discriminate].
Qed.

(** What a miss does, by the answer of [headObject]. *)
Lemma getMetadata_miss file_id (st : Store W) :
  (forall entry, cache st !! file_id = Some entry -> file entry = None) ->
  _getMetadata file_id st =
    let '(answer, w') := headObject client (sidecar_key file_id) (s3 st) in
    let st' := mkStore (cache st) w' (calls st ++ [HeadObject (sidecar_key file_id)]) in
    match answer with
    | inl e => (Rejected e, st')
    | inr Metadata =>
        match Metadata !! "file" with
        | None => (Rejected (SyntaxError (quoted "undefined" +:+ " is not valid JSON")), st')
        | Some text =>
            match JSON_parse text with
            | None => (Rejected (SyntaxError "Unexpected token in JSON"), st')
            | Some parsed =>
                let entry :=
                  mkSession parsed
                    (Js.or_string (Metadata !! "upload_id") (Metadata !! "upload-id"))
                    (delete "upload_id" (delete "file" Metadata)) in
                (Resolved entry,
                 mkStore (<[file_id := entry]> (cache st)) w'
                   (calls st ++ [HeadObject (sidecar_key file_id)]))
            end
        end
    end.
Proof.
  intros Hmiss. unfold _getMetadata, andThen at 1. simpl.
  assert (Hfetch : forall p : Promise W Session,
            match cache st !! file_id with
            | Some {| file := Some f; upload_id := u; attrs := a |} =>
                resolve (mkSession (Some f) u a)
            | _ => p
            end st = p st).
  { intros p. destruct (cache st !! file_id) as [[[f|] u a]|] eqn:Hc; try done.
    by specialize (Hmiss _ eq_refl). }
  rewrite Hfetch, catch_rethrow. unfold andThen at 1. rewrite request_answer.
  fold (sidecar_key file_id).
  destruct (headObject client (sidecar_key file_id) (s3 st)) as [[e|Metadata] w'];
    simpl; [done|].
  destruct (Metadata !! "file") as [text|]; [|done].
  destruct (JSON_parse text) as [parsed|]; done.
Qed.

(** What [_getMetadata] resolves with is what the cache then holds. *)
Lemma getMetadata_cached file_id (st st1 : Store W) metadata :
  _getMetadata file_id st = (Resolved metadata, st1) ->
  cache st1 !! file_id = Some metadata.
Proof.
  destruct (cache st !! file_id) as [[[f|] u a]|] eqn:Hc.
  - rewrite (getMetadata_hit file_id st _ f Hc eq_refl). by intros [= <- <-].
  - rewrite getMetadata_miss by (intros ?; rewrite Hc; by intros [= <-]).
    destruct (headObject client _ _) as [[e|Metadata] w']; [done|].
    destruct (Metadata !! "file") as [text|]; [|done].
    destruct (JSON_parse text) as [parsed|]; [|done].
    intros [= <- <-]. simpl. apply lookup_insert_eq.
  - rewrite getMetadata_miss by (intros ?; by rewrite Hc).
    destruct (headObject client _ _) as [[e|Metadata] w']; [done|].
    destruct (Metadata !! "file") as [text|]; [|done].
    destruct (JSON_parse text) as [parsed|]; [|done].
    intros [= <- <-]. simpl. apply lookup_insert_eq.
Qed.

(** C7.  [_getMetadata] answers from the cache when the cache holds an entry
    for the id whose [file] is populated, without a request.  Otherwise it
    reads the sidecar [{id}.info] with [headObject], parses the [file] field
    of its user metadata as JSON, takes [upload_id] from the key [upload_id],
    or from the key [upload-id] when [upload_id] is absent, stores the
    record in the cache and returns it; with only [upload-id] present the
    returned [upload_id] is that value. *)
Theorem getMetadata_cache_then_sidecar (file_id : string) (st : Store W) :
  (forall entry f,
     cache st !! file_id = Some entry ->
     file entry = Some f ->
     _getMetadata file_id st = (Resolved entry, st))
  /\ (forall Metadata w' text parsed,
        (forall entry, cache st !! file_id = Some entry -> file entry = None) ->
        headObject client (sidecar_key file_id) (s3 st) = (inr Metadata, w') ->
        Metadata !! "file" = Some text ->
        JSON_parse text = Some parsed ->
        exists entry,
          _getMetadata file_id st
            = (Resolved entry,
               mkStore (<[file_id := entry]> (cache st)) w'
                 (calls st ++ [HeadObject (sidecar_key file_id)]))
          /\ file entry = parsed
          /\ (forall u, Metadata !! "upload_id" = Some u -> u <> "" ->
                upload_id entry = Some u)
          /\ (Metadata !! "upload_id" = None ->
                upload_id entry = Metadata !! "upload-id")
          /\ (forall u, Metadata !! "upload_id" = None ->
                Metadata !! "upload-id" = Some u ->
                upload_id entry = Some u)).
Proof.
  split; [intros entry f; apply getMetadata_hit|].
  intros Metadata w' text parsed Hmiss Hhead Htext Hparse.
  rewrite (getMetadata_miss file_id st Hmiss), Hhead, Htext, Hparse.
  eexists. split; [reflexivity|]. simpl. split; [done|].
  unfold Js.or_string, Js.truthy_string. split; [|split].
  - intros u -> Hu. by apply String.eqb_neq in Hu as ->.
  - by intros ->.
  - by intros u -> ->.
Qed.

End Metadata.

(** A sidecar as DigitalOcean Spaces hands it out, with the multipart
    upload's id under [upload-id] only. *)
Lemma getMetadata_cache_then_sidecar_witness :
  let Metadata : gmap string string :=
    {[ "file" := "movie"; "upload-id" := "mpu-7"; "tus_version" := "1.0.0" ]} in
  let st := Scripted.store []
              (Scripted.mkScript [] [] [] [inr Metadata] [] [] []) in
  exists entry st',
    _getMetadata (this := Scripted.config [Scripted.movie] 1) "movie" st
      = (Resolved entry, st')
    /\ file entry = Some Scripted.movie
    /\ upload_id entry = Some "mpu-7"
    /\ cache st' !! "movie" = Some entry.
Proof.
  intros Metadata st.
  destruct (proj2 (getMetadata_cache_then_sidecar
                     (this := Scripted.config [Scripted.movie] 1) "movie" st)
              Metadata Scripted.silent "movie" (Some Scripted.movie))
    as (entry & Hrun & Hfile & _ & _ & Hfallback).
  - intros entry Hentry. vm_compute in Hentry. discriminate.
  - reflexivity.
  - reflexivity.
  - reflexivity.
  - exists entry. eexists. split; [exact Hrun|]. split; [exact Hfile|].
    split; [apply Hfallback; reflexivity|]. simpl. apply lookup_insert_eq.
Defined.

(** ** [getOffset] *)

Section GetOffset.

Context {W : Type} {this : Config W}.

Lemma sum_sizes_from acc ps :
  fold_left (fun a b => a + Size b) ps acc = acc + total_size ps.
Proof.
  revert acc. induction ps as [|p ps IH]; intros acc; simpl; [lia|].
  rewrite IH. lia.
Qed.

Lemma sum_sizes_total ps :
  (if 0 <? Z.of_nat (length ps) then sum_sizes ps else 0) = total_size ps.
Proof.
  unfold sum_sizes. rewrite sum_sizes_from. by destruct ps.
Qed.

Lemma offset_record_resolved file_id metadata f size_of ps (st : Store W) :
  cache st !! file_id = Some metadata ->
  file metadata = Some f ->
  offset_record file_id metadata size_of ps st
    = (Resolved (mkOffset (Some f) (size_of f) (upload_length f)
                   (upload_defer_length f) ps), st).
Proof.
  intros Hc Hf. unfold offset_record, andThen. simpl. by rewrite Hc, Hf.
Qed.

(** C6.  When the metadata cannot be retrieved, [getOffset] fails with
    [FILE_NOT_FOUND].  When it can, and holds a file record: if the parts
    are retrieved, the offset's [size] is the sum of their sizes (0 for no
    parts) and the offset carries the declared lengths and the parts; if
    retrieving them fails with code [NoSuchUpload], the offset's [size] is
    [upload_length], it carries the declared lengths and has no parts; if
    retrieving them fails with any other error, that error propagates. *)
Theorem getOffset_sums_parts (file_id : string) (st : Store W) :
  (forall e st1,
     _getMetadata file_id st = (Rejected e, st1) ->
     getOffset file_id st = (Rejected FILE_NOT_FOUND, st1))
  /\ (forall metadata f st1,
        _getMetadata file_id st = (Resolved metadata, st1) ->
        file metadata = Some f ->
        (forall ps st2,
           _retrieveParts page_fuel file_id None st1 = (Resolved ps, st2) ->
           getOffset file_id st
             = (Resolved {| offset_file := Some f;
                            size := Some (total_size ps);
                            offset_upload_length := upload_length f;
                            offset_upload_defer_length := upload_defer_length f;
                            parts := Some ps |}, st2))
        /\ (forall e st2,
              _retrieveParts page_fuel file_id None st1 = (Rejected e, st2) ->
              error_code e = Some "NoSuchUpload" ->
              getOffset file_id st
                = (Resolved {| offset_file := Some f;
                               size := upload_length f;
                               offset_upload_length := upload_length f;
                               offset_upload_defer_length := upload_defer_length f;
                               parts := None |}, st2))
        /\ (forall e st2,
              _retrieveParts page_fuel file_id None st1 = (Rejected e, st2) ->
              error_code e <> Some "NoSuchUpload" ->
              getOffset file_id st = (Rejected e, st2))).
Proof.
  split.
  - intros e st1 Hm. unfold getOffset.
    apply andThen_rejected. by rewrite (catch_rejected _ _ _ _ _ Hm).
  - intros metadata f st1 Hm Hf.
    assert (Hstart : forall k : Session -> Promise W Offset,
              andThen (catch (_getMetadata file_id) (fun _ => reject FILE_NOT_FOUND)) k st
              = k metadata st1).
    { intros k. apply andThen_resolved. by apply catch_resolved. }
    assert (Hcache : forall o st2,
              _retrieveParts page_fuel file_id None st1 = (o, st2) ->
              cache st2 !! file_id = Some metadata).
    { intros o st2 Hr.
      pose proof (retrieveParts_cache page_fuel file_id None st1) as Hk.
      rewrite Hr in Hk. simpl in Hk. rewrite Hk. by eapply getMetadata_cached. }
    split; [|split].
    + intros ps st2 Hr. unfold getOffset. rewrite Hstart.
      apply catch_resolved. rewrite (andThen_resolved _ _ _ _ _ Hr).
      rewrite (offset_record_resolved file_id metadata f) by eauto.
      by rewrite sum_sizes_total.
    + intros e st2 Hr He. unfold getOffset. rewrite Hstart.
      rewrite (catch_rejected _ _ st1 e st2) by by apply andThen_rejected.
      rewrite He. rewrite bool_decide_eq_true_2 by done. simpl.
      by rewrite (offset_record_resolved file_id metadata f) by eauto.
    + intros e st2 Hr He. unfold getOffset. rewrite Hstart.
      rewrite (catch_rejected _ _ st1 e st2) by by apply andThen_rejected.
      by rewrite bool_decide_eq_false_2 by done.
Qed.

End GetOffset.

(** An upload with parts 1 (8 MiB) and 2 (6 MiB) in place is at 14 MiB. *)
Lemma getOffset_sums_parts_witness :
  let listing := [Scripted.part 1 (8 * Scripted.MiB); Scripted.part 2 (6 * Scripted.MiB)] in
  let st := Scripted.store [("movie", Scripted.session_of Scripted.movie)]
              (Scripted.mkScript [] [] [] [] [] [Scripted.page listing None] []) in
  exists st',
    getOffset (this := Scripted.config [] 1) "movie" st
      = (Resolved {| offset_file := Some Scripted.movie;
                     size := Some (14 * Scripted.MiB);
                     offset_upload_length := Some (20 * Scripted.MiB);
                     offset_upload_defer_length := None;
                     parts := Some listing |}, st').
Proof.
  intros listing st.
  edestruct (proj2 (getOffset_sums_parts (this := Scripted.config [] 1) "movie" st)
               (Scripted.session_of Scripted.movie) Scripted.movie st)
    as (Hparts & _ & _).
  - reflexivity.
  - reflexivity.
  - eexists. apply (Hparts listing). vm_compute. reflexivity.
Defined.

(** ** [create] *)

Section Create.

Context {W : Type} {this : Config W}.

Lemma multipart_request_eq (f : File) :
  multipart_request f =
    {| cmu_Bucket := bucket_name;
       cmu_Key := id f;
       cmu_Metadata :=
         {| mm_tus_version := TUS_RESUMABLE;
            mm_upload_length := upload_length f;
            mm_upload_defer_length := upload_defer_length f;
            mm_upload_metadata := upload_metadata f;
            mm_original_name :=
              match _parseMetadataString (upload_metadata f) !! "filename" with
              | Some v => encoded v
              | None => None
              end |};
       cmu_ContentType :=
         match _parseMetadataString (upload_metadata f) !! "contentType" with
         | Some v => decoded v
         | None => None
         end |}.
Proof.
  unfold multipart_request.
  by destruct (_parseMetadataString (upload_metadata f) !! "filename"),
              (_parseMetadataString (upload_metadata f) !! "contentType").
Qed.

(** C5.  [create] checks that the bucket exists, creates the multipart
    upload and saves the sidecar, in this order.  When the three requests
    succeed it resolves with the upload it was given, unchanged, and leaves
    the cache as it was.  When one of them fails (or [headBucket] answers
    with nothing) it makes no further request, removes the cache entry of
    the upload's id and rejects: with the error of [createMultipartUpload]
    or [putObject] as it is, with the error of the bucket check as
    [_bucketExists] rethrows it. *)
Theorem create_returns_upload_or_clears (f : File) (st : Store W) :
  let '(bucket_answer, w1) := headBucket client bucket_name (s3 st) in
  let cleared := delete (id f) (cache st) in
  let js1 := [HeadBucket bucket_name] in
  match bucket_answer with
  | inl e =>
      create f st = (Rejected (bucket_failure e), mkStore cleared w1 (calls st ++ js1))
  | inr None =>
      create f st
        = (Rejected (bucket_failure
                       (new_Error ("bucket " +:+ quoted bucket_name +:+ " does not exist"))),
           mkStore cleared w1 (calls st ++ js1))
  | inr (Some _) =>
      let '(multipart_answer, w2) :=
        createMultipartUpload client (multipart_request f) w1 in
      let js2 := js1 ++ [CreateMultipartUpload (multipart_request f)] in
      match multipart_answer with
      | inl e => create f st = (Rejected e, mkStore cleared w2 (calls st ++ js2))
      | inr UploadId =>
          let '(sidecar_answer, w3) :=
            putObject client (sidecar_request f (Some UploadId)) w2 in
          let js3 := js2 ++ [PutObject (sidecar_request f (Some UploadId))] in
          match sidecar_answer with
          | inl e => create f st = (Rejected e, mkStore cleared w3 (calls st ++ js3))
          | inr _ => create f st = (Resolved f, mkStore (cache st) w3 (calls st ++ js3))
          end
      end
  end.
Proof.
  pose proof (multipart_request_eq f) as Hreq.
  unfold create, _bucketExists, _initMultipartUpload, _saveMetadata, _clearCache.
  unfold catch, andThen, request, resolve, reject, write_cache. simpl.
  rewrite <- Hreq.
  destruct (headBucket client bucket_name (s3 st)) as [[e|[[]|]] w1]; simpl; try done.
  destruct (createMultipartUpload client (multipart_request f) w1)
    as [[e|UploadId] w2]; simpl; [rewrite <- app_assoc; reflexivity|].
  fold (sidecar_request f (Some UploadId)).
  destruct (putObject client (sidecar_request f (Some UploadId)) w2)
    as [[e|[]] w3]; simpl; rewrite <- !app_assoc; reflexivity.
Qed.

End Create.

(** ** [declareUploadLength] *)

Section DeclareUploadLength.

Context {W : Type} {this : Config W}.

(** With a file record at hand the length is declared on the cached upload
    and the sidecar is saved anew under the same multipart upload id; the
    outcome of saving is not waited for. *)
Lemma declareUploadLength_declares file_id length (st st1 : Store W) metadata f :
  _getMetadata file_id st = (Resolved metadata, st1) ->
  file metadata = Some f ->
  let f' := with_length f length in
  let r := sidecar_request f' (upload_id metadata) in
  declareUploadLength file_id length st
    = (Resolved tt,
       mkStore (<[file_id := mkSession (Some f') (upload_id metadata) (attrs metadata)]>
                  (cache st1))
         (snd (putObject client r (s3 st1)))
         (calls st1 ++ [PutObject r])).
Proof.
  intros Hm Hf f' r. unfold declareUploadLength.
  rewrite (andThen_resolved _ _ _ _ _ Hm), Hf.
  change (mkFile (id f) (Some length) None (upload_metadata f) (creation_date f)) with f'.
  unfold andThen, write_cache, not_awaited, _saveMetadata. simpl.
  rewrite catch_rethrow. unfold andThen. rewrite request_answer. simpl.
  change (mkPutObjectRequest _ _ _ _) with r.
  assert (Hcache : alter (fun entry => mkSession (Some f') (upload_id entry) (attrs entry))
                     file_id (cache st1)
                   = <[file_id := mkSession (Some f') (upload_id metadata) (attrs metadata)]>
                       (cache st1)).
  { apply map_eq. intros k. destruct (decide (file_id = k)) as [<-|Hne].
    - rewrite lookup_alter_eq, lookup_insert_eq.
      by rewrite (getMetadata_cached _ _ _ _ Hm).
    - by rewrite lookup_alter_ne, lookup_insert_ne. }
  rewrite Hcache.
  by destruct (putObject client r (s3 st1)) as [[e|[]] w'].
Qed.

Lemma declareUploadLength_no_file file_id length (st st1 : Store W) metadata :
  _getMetadata file_id st = (Resolved metadata, st1) ->
  file metadata = None ->
  declareUploadLength file_id length st = (Rejected FILE_NOT_FOUND, st1).
Proof.
  intros Hm Hf. unfold declareUploadLength.
  by rewrite (andThen_resolved _ _ _ _ _ Hm), Hf.
Qed.

(** No handler stands between [_getMetadata] and the caller. *)
Lemma declareUploadLength_metadata_error file_id length (st st1 : Store W) e :
  _getMetadata file_id st = (Rejected e, st1) ->
  declareUploadLength file_id length st = (Rejected e, st1).
Proof. intros Hm. unfold declareUploadLength. by apply andThen_rejected. Qed.

End DeclareUploadLength.

(** C8, where the code departs from it.  With no sidecar for the id,
    [headObject] fails with S3's [NotFound]; [declareUploadLength] rejects
    with that error where the claim has [FILE_NOT_FOUND], which is what
    [getOffset] rejects with on the same store. *)
Lemma declareUploadLength_missing_sidecar :
  let NotFound := CodedError "NotFound" (Some 404) "Not Found" in
  let st := Scripted.store [] (Scripted.mkScript [] [] [] [inl NotFound] [] [] []) in
  let st' := mkStore ∅ Scripted.silent
               [HeadObject (mkHeadObjectRequest "uploads" "gone.info")] in
  declareUploadLength (this := Scripted.config [] 1) "gone" 100 st = (Rejected NotFound, st')
  /\ getOffset (this := Scripted.config [] 1) "gone" st = (Rejected FILE_NOT_FOUND, st').
Proof. split; vm_compute; reflexivity. Qed.

(** ** [write] *)

Section Write.

Context {W : Type} {this : Config W}.


(** The three reads that open [write], then the coordinator. *)
Lemma write_stages readable file_id (st st1 st1' st2 st3 : Store W)
    metadata count initial_offset ps :
  _getMetadata file_id st = (Resolved metadata, st1) ->
  _countParts file_id st1 = (Resolved count, st1') ->
  getOffset file_id st1' = (Resolved initial_offset, st2) ->
  _processUpload metadata readable (count + 1) (size initial_offset) st2
    = (Resolved ps, st3) ->
  write readable file_id st
    = catch (write_chain metadata file_id ps) (write_catch file_id) st3
  /\ steady st st3.
Proof.
  intros Hm Hcount Hoff Hrun. split.
  - unfold write. rewrite (andThen_resolved _ _ _ _ _ Hm).
    assert (Hall : all2 (_countParts file_id) (getOffset file_id) st1
                   = (Resolved (count, initial_offset), st2)).
    { unfold all2. by rewrite Hcount, Hoff. }
    rewrite (andThen_resolved _ _ _ _ _ Hall).
    by rewrite (andThen_resolved _ _ _ _ _ Hrun).
  - pose proof (steady_getMetadata file_id st) as H1. rewrite Hm in H1.
    pose proof (steady_countParts file_id st1) as H2. rewrite Hcount in H2.
    pose proof (steady_getOffset file_id st1') as H3. rewrite Hoff in H3.
    pose proof (steady_processUpload metadata readable (count + 1)
                  (size initial_offset) st2) as H4. rewrite Hrun in H4.
    simpl in *. eauto using steady_trans.
Qed.





End Write.



Section WriteCompletion.

Context {W : Type} {this : Config W}.


(** An offset without parts (the multipart upload is gone) whose size is
    the declared length: the parts cannot be mapped, no request is made,
    and [write] removes the cache entry and rejects with the [TypeError]. *)
Lemma write_completion_without_parts
    (readable : Readable) (file_id : string) (st st1 st1' st2 st3 st4 : Store W)
    (metadata : Session) (f : File) (count : Z) (initial_offset current_offset : Offset)
    (ps : list PromiseEntry) (values : list unit) :
  _getMetadata file_id st = (Resolved metadata, st1) ->
  _countParts file_id st1 = (Resolved count, st1') ->
  getOffset file_id st1' = (Resolved initial_offset, st2) ->
  _processUpload metadata readable (count + 1) (size initial_offset) st2
    = (Resolved ps, st3) ->
  Promise_all (map entry_outcome ps) = Resolved values ->
  getOffset file_id st3 = (Resolved current_offset, st4) ->
  file metadata = Some f ->
  equals_upload_length f (size current_offset) ->
  parts current_offset = None ->
  write readable file_id st
    = (Rejected (TypeError "Cannot read properties of undefined (reading 'map')"),
       cleared file_id st4).
Proof.
  intros Hm Hcount Hoff Hrun Hall Hnow Hf Heq Hparts.
  destruct (write_stages readable file_id st st1 st1' st2 st3 metadata count
              initial_offset ps Hm Hcount Hoff Hrun) as [Hwrite _].
  rewrite Hwrite. apply strict_eq_final in Heq.
  assert (Hchain : write_chain metadata file_id ps st3
          = (Rejected (TypeError "Cannot read properties of undefined (reading 'map')"),
             st4)).
  { unfold write_chain, andThen at 1, settled. rewrite Hall.
    rewrite (andThen_resolved _ _ _ _ _ Hnow), Hf, Heq, catch_rethrow.
    unfold andThen at 1, _finishMultipartUpload. by rewrite Hf, Hparts. }
  by rewrite (catch_rejected _ _ _ _ _ Hchain).
Qed.

End WriteCompletion.



(** ** [_parseMetadataString] *)

Section ParseMetadata.

Context {W : Type} {this : Config W}.

Lemma free_of_append c s t :
  free_of c (s +:+ t) = free_of c s && free_of c t.
Proof.
  induction s as [|a s IH]; simpl; [done|]. rewrite IH. by rewrite andb_assoc.
Qed.

Lemma split_free c s : free_of c s = true -> Js.split c s = [s].
Proof.
  induction s as [|a s IH]; simpl; [done|].
  intros [Ha Hs]%andb_true_iff. apply negb_true_iff in Ha. rewrite Ha.
  by rewrite (IH Hs).
Qed.

Lemma split_separator c w rest :
  free_of c w = true ->
  Js.split c (w +:+ String c rest) = w :: Js.split c rest.
Proof.
  induction w as [|a w IH]; simpl.
  - intros _. by rewrite Ascii.eqb_refl.
  - intros [Ha Hw]%andb_true_iff. apply negb_true_iff in Ha. rewrite Ha.
    by rewrite (IH Hw).
Qed.

Lemma split_join c ws :
  ws <> [] ->
  Forall (fun w => free_of c w = true) ws ->
  Js.split c (join (String c EmptyString) ws) = ws.
Proof.
  induction ws as [|w ws IH]; [done|]. intros _ Hfree.
  apply Forall_cons in Hfree as [Hw Hws].
  destruct ws as [|w' ws]; [by apply split_free|].
  change (join (String c EmptyString) (w :: w' :: ws))
    with (w +:+ String c (join (String c EmptyString) (w' :: ws))).
  rewrite split_separator by done. by rewrite IH.
Qed.

Lemma split_entry e :
  plain_entry e = true ->
  Js.split "," (render_entry e) = [render_entry e]
  /\ Js.split " " (render_entry e)
     = fst e :: match snd e with Some v => [v] | None => [] end.
Proof.
  destruct e as [key [v|]]; unfold plain_entry; simpl;
    rewrite !andb_true_iff.
  - intros [[Hk1 Hk2] [Hv1 Hv2]]. split.
    + apply split_free. rewrite !free_of_append, Hk1, Hv1. done.
    + change (key +:+ " " +:+ v) with (key +:+ String " " v).
      rewrite split_separator by done. by rewrite split_free.
  - intros [[Hk1 Hk2] _]. split; by apply split_free.
Qed.

(** The reducer of [_parseMetadataString], over entries as they were
    rendered. *)
Lemma parse_fold entries :
  Forall (fun e => plain_entry e = true) entries ->
  forall metadata : gmap string MetadataValue,
    fold_left
      (fun metadata kv_pair =>
         match Js.split " " kv_pair with
         | [] => metadata
         | key :: rest =>
             <[key := {| encoded := head rest;
                         decoded := base64_to_ascii <$> head rest |}]> metadata
         end)
      (map render_entry entries) metadata
    = fold_left (fun m e => <[fst e := parsed_entry (snd e)]> m) entries metadata.
Proof.
  induction 1 as [|e entries He Hes IH]; intros metadata; simpl; [done|].
  destruct (split_entry e He) as [_ ->]. rewrite IH.
  by destruct e as [key [v|]].
Qed.

Lemma fold_entries_lookup entries :
  forall (m : gmap string MetadataValue) key,
    NoDup (map fst entries) ->
    (forall v, (key, v) ∈ entries ->
       fold_left (fun m e => <[fst e := parsed_entry (snd e)]> m) entries m !! key
       = Some (parsed_entry v))
    /\ (key ∉ map fst entries ->
        fold_left (fun m e => <[fst e := parsed_entry (snd e)]> m) entries m !! key
        = m !! key).
Proof.
  induction entries as [|[k v0] entries IH]; intros m key Hnd; simpl.
  - split; [by intros v Hin%elem_of_nil|done].
  - apply NoDup_cons in Hnd as [Hk Hnd].
    destruct (IH (<[k := parsed_entry v0]> m) key Hnd) as [Hin Hout]. split.
    + intros v [[= -> ->]|Hv]%elem_of_cons; [|by apply Hin].
      rewrite Hout by done. apply lookup_insert_eq.
    + intros Hnot. apply not_elem_of_cons in Hnot as [Hne Hnot].
      rewrite Hout by done. by rewrite lookup_insert_ne.
Qed.

(** Parsing what was rendered. *)
Lemma parse_rendered entries :
  Forall (fun e => plain_entry e = true) entries ->
  render_metadata entries <> "" ->
  _parseMetadataString (Some (render_metadata entries))
    = fold_left (fun m e => <[fst e := parsed_entry (snd e)]> m) entries ∅.
Proof.
  intros Hplain Hne. unfold _parseMetadataString.
  destruct (String.eqb_spec (render_metadata entries) "") as [Heq|_]; [done|].
  unfold render_metadata. rewrite split_join.
  - by apply parse_fold.
  - destruct entries; [done|done].
  - apply Forall_fmap. eapply Forall_impl; [exact Hplain|].
    intros e He. simpl.
    destruct e as [key [v|]]; unfold plain_entry in He; simpl in *;
      rewrite ?andb_true_iff in He.
    + destruct He as [[Hk _] [Hv _]]. by rewrite !free_of_append, Hk, Hv.
    + by destruct He as [[Hk _] _].
Qed.

Lemma parse_rendered_lookup entries :
  Forall (fun e => plain_entry e = true) entries ->
  render_metadata entries <> "" ->
  NoDup (map fst entries) ->
  (forall key v, (key, v) ∈ entries ->
     _parseMetadataString (Some (render_metadata entries)) !! key
     = Some (parsed_entry v))
  /\ (forall key, key ∉ map fst entries ->
      _parseMetadataString (Some (render_metadata entries)) !! key = None).
Proof.
  intros Hplain Hne Hnd. rewrite (parse_rendered entries Hplain Hne). split.
  - intros key v Hin. by apply (fold_entries_lookup entries ∅ key Hnd).
  - intros key Hnot.
    destruct (fold_entries_lookup entries ∅ key Hnd) as [_ ->]; done.
Qed.

(** X1.  A metadata string made of entries [key value] or [key], joined by
    commas, with no comma or space inside a key or a value, parses to the
    map that holds, for every key, the value as received ([encoded]) and
    its base64 decoding read as ASCII ([decoded]); a key that stands alone
    has both undefined; of two entries with one key the later wins.  With
    distinct keys every entry is found under its key, and no other key is
    bound. *)
Theorem parseMetadataString_rendered (entries : list (string * option string)) :
  Forall (fun e => plain_entry e = true) entries ->
  render_metadata entries <> "" ->
  _parseMetadataString (Some (render_metadata entries))
    = fold_left (fun m e => <[fst e := parsed_entry (snd e)]> m) entries ∅
  /\ (NoDup (map fst entries) ->
      (forall key v, (key, v) ∈ entries ->
         _parseMetadataString (Some (render_metadata entries)) !! key
         = Some (parsed_entry v))
      /\ (forall key, key ∉ map fst entries ->
         _parseMetadataString (Some (render_metadata entries)) !! key = None)).
Proof.
  intros Hplain Hne. split; [by apply parse_rendered|].
  intros Hnd. by apply parse_rendered_lookup.
Qed.

(** X2.  The request that [_initMultipartUpload] sends first carries, for an
    upload whose metadata string is as above with distinct keys: as
    [ContentType] the decoded value of the [contentType] entry, as
    [original_name] the value of the [filename] entry as received, still
    base64; each is undefined when its entry is missing or stands alone.
    The declared lengths and the metadata string go into the request
    unchanged. *)
Theorem initMultipartUpload_request
    (f : File) (entries : list (string * option string)) (st : Store W) :
  upload_metadata f = Some (render_metadata entries) ->
  Forall (fun e => plain_entry e = true) entries ->
  render_metadata entries <> "" ->
  NoDup (map fst entries) ->
  exists r rest,
    calls (snd (_initMultipartUpload f st)) = calls st ++ CreateMultipartUpload r :: rest
    /\ cmu_Key r = id f
    /\ mm_upload_length (cmu_Metadata r) = upload_length f
    /\ mm_upload_defer_length (cmu_Metadata r) = upload_defer_length f
    /\ mm_upload_metadata (cmu_Metadata r) = upload_metadata f
    /\ (forall v, ("contentType", v) ∈ entries ->
          cmu_ContentType r = base64_to_ascii <$> v)
    /\ ("contentType" ∉ map fst entries -> cmu_ContentType r = None)
    /\ (forall v, ("filename", v) ∈ entries ->
          mm_original_name (cmu_Metadata r) = v)
    /\ ("filename" ∉ map fst entries -> mm_original_name (cmu_Metadata r) = None).
Proof.
  intros Hmeta Hplain Hne Hnd.
  destruct (parse_rendered_lookup entries Hplain Hne Hnd) as [Hin Hout].
  exists (multipart_request f).
  assert (Hjournal : exists rest,
            calls (snd (_initMultipartUpload f st))
            = calls st ++ CreateMultipartUpload (multipart_request f) :: rest).
  { unfold _initMultipartUpload. rewrite catch_rethrow, <- multipart_request_eq.
    unfold andThen. rewrite request_answer.
    destruct (createMultipartUpload client (multipart_request f) (s3 st))
      as [[e|UploadId] w1]; simpl; [by exists []|].
    unfold _saveMetadata. rewrite catch_rethrow. unfold andThen.
    rewrite request_answer. simpl.
    eexists [_]. destruct (putObject client _ w1) as [[e|[]] w2]; simpl;
      by rewrite <- app_assoc. }
  destruct Hjournal as [rest Hjournal]. exists rest.
  split; [done|]. unfold multipart_request. simpl. rewrite Hmeta.
  repeat split.
  - intros v Hv. by rewrite (Hin _ _ Hv).
  - intros Hnot. by rewrite (Hout _ Hnot).
  - intros v Hv. by rewrite (Hin _ _ Hv).
  - intros Hnot. by rewrite (Hout _ Hnot).
Qed.

End ParseMetadata.

(** ** More on [_retrieveParts] *)

Section RetrievePartsMore.

Context {W : Type} {this : Config W}.

(** What the filter keeps is in strictly ascending order, whatever it is
    given, and numbered within the indices it ran over. *)
Lemma filter_index_from_ascending i l :
  StronglySorted pn_lt (filter_index_from i l)
  /\ Forall (fun p => i + 1 <= PartNumber p <= i + Z.of_nat (length l))
       (filter_index_from i l).
Proof.
  revert i. induction l as [|q l IH]; intros i; simpl.
  - split; constructor.
  - destruct (IH (i + 1)) as [Hs Hb].
    assert (Hb' : Forall (fun p => i + 1 < PartNumber p
                                   /\ PartNumber p <= i + Z.of_nat (S (length l)))
                    (filter_index_from (i + 1) l)).
    { eapply Forall_impl; [exact Hb|]. simpl. intros; lia. }
    destruct (Z.eqb_spec (PartNumber q) (i + 1)) as [Heq|Hne].
    + split.
      * constructor; [done|]. eapply Forall_impl; [exact Hb'|].
        unfold pn_lt. simpl. intros; lia.
      * constructor; [lia|]. eapply Forall_impl; [exact Hb'|]. simpl. intros; lia.
    + split; [done|]. eapply Forall_impl; [exact Hb'|]. simpl. intros; lia.
Qed.

(** A list in ascending order is left as it is by the sort. *)
Lemma sort_parts_sorted_id l : StronglySorted pn_le l -> sort_parts l = l.
Proof.
  induction 1 as [|p l Hs IH Hp]; simpl; [done|].
  fold (sort_parts l). rewrite IH.
  destruct l as [|q l]; simpl; [done|].
  apply Forall_cons in Hp as [Hpq _]. unfold pn_le in Hpq.
  by destruct (Z.leb_spec (PartNumber p) (PartNumber q)); [|lia].
Qed.

Lemma filter_index_from_numbered i l :
  (forall (j : nat) p, l !! j = Some p -> PartNumber p = i + Z.of_nat j + 1) ->
  filter_index_from i l = l.
Proof.
  revert i. induction l as [|q l IH]; intros i Hnum; simpl; [done|].
  rewrite (Hnum 0%nat q eq_refl).
  replace (i + Z.of_nat 0 + 1) with (i + 1) by lia. rewrite Z.eqb_refl.
  f_equal. apply IH. intros j p Hj. rewrite (Hnum (S j) p Hj). lia.
Qed.

Lemma numbered_sorted i l :
  (forall (j : nat) p, l !! j = Some p -> PartNumber p = i + Z.of_nat j + 1) ->
  StronglySorted pn_le l.
Proof.
  revert i. induction l as [|q l IH]; intros i Hnum; [constructor|].
  constructor.
  - apply (IH (i + 1)). intros j p Hj. rewrite (Hnum (S j) p Hj). lia.
  - rewrite Forall_forall. intros p [j Hj]%list_elem_of_lookup.
    unfold pn_le. rewrite (Hnum 0%nat q eq_refl), (Hnum (S j) p Hj). lia.
Qed.

(** The outermost call resolves with a sorted and filtered list only. *)
Lemma retrieveParts_outermost_shape fuel file_id (st st' : Store W) result :
  _retrieveParts fuel file_id None st = (Resolved result, st') ->
  exists l, result = filter_index (sort_parts l).
Proof.
  destruct fuel as [|fuel]; simpl; [done|].
  unfold andThen at 1. simpl.
  destruct (cache st !! file_id) as [entry|]; [|done].
  unfold andThen at 1.
  match goal with |- context [andThen ?p ?k ?s] =>
    destruct (andThen p k s) as [[l|e|] st1] end; [|done|done].
  intros [= <- <-]. by exists l.
Qed.

(** X3.  Listing parts presupposes that the metadata was read.  Without a
    cache entry for the id, [_retrieveParts] throws a [TypeError] before any
    request is made, whatever the marker.  Right after a [_getMetadata]
    that resolved, its first request is a [listParts] for the id as key,
    under the upload id that the metadata carries, with the marker only
    when it is not zero. *)
Theorem retrieveParts_needs_cache_entry
    (fuel : nat) (file_id : string) (marker : option Z) (st : Store W) :
  (cache st !! file_id = None ->
   exists message,
     _retrieveParts (S fuel) file_id marker st = (Rejected (TypeError message), st))
  /\ (forall metadata st0,
        _getMetadata file_id st0 = (Resolved metadata, st) ->
        exists rest,
          calls (snd (_retrieveParts (S fuel) file_id marker st))
          = calls st
            ++ ListParts {| lp_Bucket := bucket_name;
                            lp_Key := file_id;
                            lp_UploadId := upload_id metadata;
                            lp_PartNumberMarker :=
                              match marker with
                              | Some 0 => None
                              | _ => marker
                              end |} :: rest).
Proof.
  split.
  - intros Hc. eexists. simpl. unfold andThen, read_cache. by rewrite Hc.
  - intros metadata st0 Hm. pose proof (getMetadata_cached _ _ _ _ Hm) as Hc.
    assert (Hmarker : (if Js.truthy_number marker then marker else None)
                      = match marker with Some 0 => None | _ => marker end).
    { by destruct marker as [[| |]|]. }
    simpl. unfold andThen at 1. simpl. rewrite Hc.
    unfold andThen at 1. unfold andThen at 1. rewrite request_answer, Hmarker.
    destruct (listParts client _ _) as [[e|data] w1]; simpl; [by exists []|].
    destruct (Js.truthy_number (NextPartNumberMarker data)).
    + unfold andThen at 1.
      match goal with |- context [_retrieveParts fuel file_id ?m ?s] =>
        destruct (steady_retrieveParts fuel file_id m s) as [_ (js & Hj & _)];
        destruct (_retrieveParts fuel file_id m s) as [[val|e|] st2]
      end; simpl in *; exists js; destruct marker; simpl;
        by rewrite Hj, <- app_assoc.
    + exists []. by destruct marker.
Qed.

(** X4.  Whatever [listParts] answers, when the outermost call of
    [_retrieveParts] resolves, the part numbers of its result ascend
    strictly, so no number occurs twice, each of them is at least 1, and
    the part at index [i] is numbered at least [i + 1]. *)
Theorem retrieveParts_result_ascending
    (fuel : nat) (file_id : string) (st st' : Store W) (result : list Part) :
  _retrieveParts fuel file_id None st = (Resolved result, st') ->
  StronglySorted pn_lt result
  /\ NoDup (map PartNumber result)
  /\ Forall (fun p => 1 <= PartNumber p) result
  /\ (forall (i : nat) p, result !! i = Some p -> Z.of_nat i + 1 <= PartNumber p).
Proof.
  intros [l ->]%retrieveParts_outermost_shape. unfold filter_index.
  destruct (filter_index_from_ascending 0 (sort_parts l)) as [Hs Hb].
  assert (Hlow : Forall (fun p => 1 <= PartNumber p) (filter_index_from 0 (sort_parts l))).
  { eapply Forall_impl; [exact Hb|]. simpl. intros; lia. }
  clear Hb. revert Hs Hlow. generalize (filter_index_from 0 (sort_parts l)).
  intros r Hs Hlow.
  assert (Hidx : forall (i : nat) p, r !! i = Some p -> Z.of_nat i + 1 <= PartNumber p).
  { assert (Hgen : forall base, Forall (fun p => base <= PartNumber p) r ->
              forall (i : nat) p, r !! i = Some p -> Z.of_nat i + base <= PartNumber p).
    { clear Hlow. induction Hs as [|q r Hs IH Hq]; intros base Hbase i p; [done|].
      apply Forall_cons in Hbase as [Hq1 Hbase].
      destruct i as [|i]; simpl.
      - intros [= <-]. lia.
      - intros Hi. assert (Z.of_nat i + (base + 1) <= PartNumber p); [|lia].
        apply IH; [|done]. rewrite Forall_forall in Hq |- *.
        intros x Hx. specialize (Hq x Hx). unfold pn_lt in Hq. lia. }
    intros i p Hi. by apply (Hgen 1 Hlow). }
  split; [done|]. split; [|split; done].
  clear Hlow Hidx. induction Hs as [|q r Hs IH Hq]; simpl; [constructor|].
  apply NoDup_cons. split; [|done].
  intros (x & Hx & Hin)%list_elem_of_fmap_1.
  rewrite Forall_forall in Hq. specialize (Hq x Hin). unfold pn_lt in Hq. lia.
Qed.

(** X5.  With distinct part numbers the order in which [listParts] hands
    out the parts does not matter: two listings that hold the same parts
    give the same sorted list and the same result. *)
Theorem sorted_filtered_order_independent (l l' : list Part) :
  Permutation l l' ->
  NoDup (map PartNumber l) ->
  sort_parts l = sort_parts l'
  /\ filter_index (sort_parts l) = filter_index (sort_parts l').
Proof.
  intros Hperm Hnd.
  assert (Heq : sort_parts l = sort_parts l'); [|by rewrite Heq].
  apply (StronglySorted_unique_strong pn_lt).
  - unfold pn_lt. intros; lia.
  - by apply sort_parts_strict.
  - apply sort_parts_strict. by rewrite <- Hperm.
  - by rewrite <- (sort_parts_perm l), <- (sort_parts_perm l').
Qed.

(** X6.  A listing that is already numbered 1, 2, ..., N in this order
    comes back unchanged from the outermost call. *)
Theorem retrieveParts_contiguous_unchanged
    (file_id : string) (entry : Session) (st : Store W)
    (n fuel : nat) (js : list Call) (l : list Part) (w' : W) :
  cache st !! file_id = Some entry ->
  listed (upload_id entry) file_id n None (s3 st) js l w' ->
  (n <= fuel)%nat ->
  (forall (j : nat) p, l !! j = Some p -> PartNumber p = Z.of_nat j + 1) ->
  _retrieveParts fuel file_id None st
    = (Resolved l, mkStore (cache st) w' (calls st ++ js)).
Proof.
  intros Hc Hl Hfuel Hnum.
  rewrite (retrieveParts_pages entry file_id n None js l w' fuel st Hc Hl Hfuel).
  rewrite sort_parts_sorted_id by (by apply (numbered_sorted 0)).
  unfold filter_index. by rewrite filter_index_from_numbered.
Qed.


End RetrievePartsMore.

(** ** More on the metadata store *)

Section MetadataMore.

Context {W : Type} {this : Config W}.

Lemma saveMetadata_request f u (st : Store W) :
  _saveMetadata f u st =
    (match fst (putObject client (sidecar_request f u) (s3 st)) with
     | inl e => Rejected e
     | inr _ => Resolved (f, u)
     end,
     mkStore (cache st) (snd (putObject client (sidecar_request f u) (s3 st)))
       (calls st ++ [PutObject (sidecar_request f u)])).
Proof.
  unfold _saveMetadata. rewrite catch_rethrow. unfold andThen.
  rewrite request_answer. fold (sidecar_request f u).
  by destruct (putObject client (sidecar_request f u) (s3 st)) as [[e|[]] w'].
Qed.

(** X8.  What [_saveMetadata] writes is what [_getMetadata] reads back.
    [_saveMetadata] makes one [putObject] request, for the key [{id}.info]
    with an empty body.  If the object store hands that sidecar's user
    metadata back (the upload id under [upload_id] or under [upload-id]),
    JSON reads back the upload it wrote, and the cache has no populated
    entry, then [_getMetadata] makes one [headObject] request for the same
    key and resolves with the upload as it was saved and the same upload
    id, which it leaves in the cache. *)
Theorem sidecar_round_trip
    (f : File) (uid id_key : string) (st : Store W) (w' : W) :
  id_key = "upload_id" \/ id_key = "upload-id" ->
  uid <> "" ->
  JSON_parse (JSON_stringify f) = Some (Some f) ->
  (forall entry, cache st !! id f = Some entry -> file entry = None) ->
  headObject client (sidecar_key (id f)) (s3 st)
    = (inr (user_metadata id_key (po_Metadata (sidecar_request f (Some uid)))), w') ->
  (forall st0 : Store W,
     calls (snd (_saveMetadata f (Some uid) st0))
       = calls st0 ++ [PutObject (sidecar_request f (Some uid))]
     /\ po_Key (sidecar_request f (Some uid)) = ho_Key (sidecar_key (id f))
     /\ po_Body (sidecar_request f (Some uid)) = "")
  /\ exists entry,
       _getMetadata (id f) st
         = (Resolved entry,
            mkStore (<[id f := entry]> (cache st)) w'
              (calls st ++ [HeadObject (sidecar_key (id f))]))
       /\ file entry = Some f
       /\ upload_id entry = Some uid
       /\ attrs entry !! "tus_version" = Some TUS_RESUMABLE.
Proof.
  intros Hkey Huid Hjson Hmiss Hhead. split.
  - intros st0. by rewrite saveMetadata_request.
  - rewrite (getMetadata_miss (id f) st Hmiss), Hhead.
    unfold user_metadata, sidecar_request. simpl.
    assert (Hempty : String.eqb uid "" = false) by by apply String.eqb_neq.
    assert (Hfile : forall key : string, key <> "file" ->
              (<[key := uid]> ({[ "file" := JSON_stringify f;
                                  "tus_version" := TUS_RESUMABLE ]} : gmap string string))
                !! "file" = Some (JSON_stringify f)).
    { intros key Hne. rewrite lookup_insert_ne by done. apply lookup_insert_eq. }
    assert (Hversion : forall key : string, key <> "tus_version" ->
              delete "upload_id"
                (delete "file"
                   (<[key := uid]> ({[ "file" := JSON_stringify f;
                                       "tus_version" := TUS_RESUMABLE ]}
                                    : gmap string string)))
                !! "tus_version" = Some TUS_RESUMABLE).
    { intros key Hne. rewrite lookup_delete_ne by done.
      rewrite lookup_delete_ne by done. rewrite lookup_insert_ne by done.
      rewrite lookup_insert_ne by done. apply lookup_singleton_eq. }
    destruct Hkey as [-> | ->].
    + rewrite Hfile by done. rewrite Hjson.
      eexists. split; [reflexivity|]. simpl. split; [done|].
      rewrite lookup_insert_eq. unfold Js.or_string. simpl. rewrite Hempty. simpl.
      split; [done|]. by apply Hversion.
    + rewrite Hfile by done. rewrite Hjson.
      eexists. split; [reflexivity|]. simpl. split; [done|].
      rewrite lookup_insert_ne by done. rewrite lookup_insert_ne by done.
      rewrite lookup_singleton_ne by done.
      rewrite lookup_insert_eq. unfold Js.or_string. simpl.
      split; [done|]. by apply Hversion.
Qed.

(** X9.  Once [_getMetadata] has resolved with a populated [file], the next
    call for the same id resolves with the same record and makes no
    request; when the [file] it resolved with is falsy, the next call asks
    the object store again. *)
Theorem getMetadata_served_from_cache
    (file_id : string) (st st1 : Store W) (metadata : Session) :
  _getMetadata file_id st = (Resolved metadata, st1) ->
  (is_Some (file metadata) -> _getMetadata file_id st1 = (Resolved metadata, st1))
  /\ (file metadata = None ->
      calls (snd (_getMetadata file_id st1))
        = calls st1 ++ [HeadObject (sidecar_key file_id)]).
Proof.
  intros Hm. pose proof (getMetadata_cached _ _ _ _ Hm) as Hc. split.
  - intros [f Hf]. by apply (getMetadata_hit file_id st1 metadata f).
  - intros Hf. rewrite getMetadata_miss.
    + destruct (headObject client _ _) as [[e|Metadata] w']; [done|].
      destruct (Metadata !! "file") as [text|]; [|done].
      by destruct (JSON_parse text).
    + intros entry. rewrite Hc. by intros [= <-].
Qed.

(** X10.  A [_getMetadata] that fails has made exactly one [headObject]
    request and has left the cache as it was; the error is the one of
    [headObject], or a [SyntaxError] when the sidecar has no [file] field
    or one that is not JSON. *)
Theorem getMetadata_failure_keeps_cache
    (file_id : string) (st st1 : Store W) (e : Error) :
  _getMetadata file_id st = (Rejected e, st1) ->
  cache st1 = cache st
  /\ calls st1 = calls st ++ [HeadObject (sidecar_key file_id)]
  /\ (fst (headObject client (sidecar_key file_id) (s3 st)) = inl e
      \/ exists message, e = SyntaxError message).
Proof.
  destruct (cache st !! file_id) as [[[f|] u a]|] eqn:Hc.
  - by rewrite (getMetadata_hit file_id st _ f Hc eq_refl).
  - rewrite getMetadata_miss by (intros ?; rewrite Hc; by intros [= <-]).
    destruct (headObject client _ _) as [[e'|Metadata] w']; simpl.
    { intros [= <- <-]. auto. }
    destruct (Metadata !! "file") as [text|]; [|intros [= <- <-]; eauto].
    destruct (JSON_parse text); [done|intros [= <- <-]; eauto].
  - rewrite getMetadata_miss by (intros ?; by rewrite Hc).
    destruct (headObject client _ _) as [[e'|Metadata] w']; simpl.
    { intros [= <- <-]. auto. }
    destruct (Metadata !! "file") as [text|]; [|intros [= <- <-]; eauto].
    destruct (JSON_parse text); [done|intros [= <- <-]; eauto].
Qed.

(** X11.  [_clearCache] removes the entry of its id and no other, makes no
    request, and changes nothing when repeated; after it the next
    [_getMetadata] for the id asks the object store, while an id whose
    entry is populated is still served from the cache. *)
Theorem clearCache_forces_refetch (file_id : string) (st : Store W) :
  let st' := snd (_clearCache file_id st) in
  st' = cleared file_id st
  /\ cache st' !! file_id = None
  /\ (forall other, other <> file_id -> cache st' !! other = cache st !! other)
  /\ snd (_clearCache file_id st') = st'
  /\ calls (snd (_getMetadata file_id st'))
     = calls st ++ [HeadObject (sidecar_key file_id)]
  /\ (forall other entry,
        other <> file_id -> cache st !! other = Some entry -> is_Some (file entry) ->
        _getMetadata other st' = (Resolved entry, st')).
Proof.
  simpl. unfold cleared. repeat split.
  - apply lookup_delete_eq.
  - intros other Hne. by apply lookup_delete_ne.
  - simpl. by rewrite delete_delete_eq.
  - rewrite getMetadata_miss by (simpl; intros entry; by rewrite lookup_delete_eq).
    simpl. destruct (headObject client _ _) as [[e|Metadata] w']; [done|].
    destruct (Metadata !! "file") as [text|]; [|done].
    by destruct (JSON_parse text).
  - intros other entry Hne Hc [f Hf].
    apply (getMetadata_hit other _ entry f); [|done].
    simpl. by rewrite lookup_delete_ne.
Qed.

(** X12.  With a file record at hand [declareUploadLength] resolves whatever
    becomes of saving the sidecar, which it does not wait for; the request
    it makes saves the upload with the declared length and no defer flag
    under the upload id of the metadata; and the next [_getMetadata] is
    served from the cache with that upload, so the length is in force for
    the store even when the sidecar could not be written. *)
Theorem declareUploadLength_then_getMetadata
    (file_id : string) (length : Z) (st st1 : Store W) (metadata : Session) (f : File) :
  _getMetadata file_id st = (Resolved metadata, st1) ->
  file metadata = Some f ->
  exists st2,
    declareUploadLength file_id length st = (Resolved tt, st2)
    /\ calls st2
       = calls st1 ++ [PutObject (sidecar_request (with_length f length)
                                    (upload_id metadata))]
    /\ _getMetadata file_id st2
       = (Resolved (mkSession (Some (with_length f length)) (upload_id metadata)
                      (attrs metadata)), st2)
    /\ upload_length (with_length f length) = Some length
    /\ upload_defer_length (with_length f length) = None.
Proof.
  intros Hm Hf. eexists.
  split; [by apply (declareUploadLength_declares file_id length st st1 metadata f)|].
  split; [done|]. split; [|done].
  eapply getMetadata_hit; [|done]. simpl. apply lookup_insert_eq.
Qed.

(** X13.  [_bucketExists] makes one [headBucket] request and leaves the cache
    alone.  It resolves only with the truthy answer of [headBucket].  Every
    error it rejects with is a fresh [Error] that carries neither the code
    nor the status of the error S3 answered with; a 404 is told apart from
    other failures by the message alone. *)
Theorem bucketExists_wraps_errors (st : Store W) :
  exists outcome w',
    _bucketExists st
      = (outcome, mkStore (cache st) w' (calls st ++ [HeadBucket bucket_name]))
    /\ outcome <> Pending
    /\ (forall data, outcome = Resolved data ->
          is_Some data /\ fst (headBucket client bucket_name (s3 st)) = inr data)
    /\ (forall e, outcome = Rejected e ->
          error_code e = None /\ error_statusCode e = None)
    /\ (forall e, fst (headBucket client bucket_name (s3 st)) = inl e ->
          error_statusCode e = Some 404 ->
          outcome = Rejected (new_Error ("[S3Store] bucket " +:+ quoted bucket_name
                                         +:+ " does not exist"))).
Proof.
  unfold _bucketExists, catch, andThen. rewrite request_answer.
  destruct (headBucket client bucket_name (s3 st)) as [[e|[[]|]] w1]; simpl;
    eexists _, _; (split; [reflexivity|]); (split; [done|]).
  - split; [done|]. split.
    + intros e' [= <-]. by case_decide.
    + intros e' [= <-] H404. by rewrite decide_True.
  - split; [intros data [= <-]; eauto|]. split; done.
  - split; [done|]. split; [|done].
    by intros e' [= <-].
Qed.

End MetadataMore.

(** ** More on the part coordinator *)

Section PartCoordinatorMore.

Context {W : Type} {this : Config W}.

Lemma removed_app js ks : removed (js ++ ks) = removed js ++ removed ks.
Proof. induction js as [|[] js IH]; simpl; by rewrite ?IH. Qed.

Lemma uploads_app js ks : uploads (js ++ ks) = uploads js ++ uploads ks.
Proof. induction js as [|[] js IH]; simpl; by rewrite ?IH. Qed.

(** What one chunk's promise does, in full. *)
Lemma chunk_promise_cases metadata path size partNumber cumulative (st : Store W) :
  exists outcome js,
    chunk_promise metadata path size partNumber cumulative st
      = (outcome, mkStore (cache st)
                    (match uploads js with
                     | r :: _ => snd (uploadPart client r (s3 st))
                     | [] => s3 st
                     end)
                    (calls st ++ js))
    /\ outcome <> Pending
    /\ removed js = [path]
    /\ match file metadata with
       | None => uploads js = []
       | Some f =>
           uploads js
           = if negb (Js.strict_eq (Js.parseInt (upload_length f)) cumulative)
                && (size <? 5 * 1024 * 1024)
             then []
             else [part_request metadata f partNumber path]
       end.
Proof.
  destruct (file metadata) as [f|] eqn:Hf.
  - destruct (negb (Js.strict_eq (Js.parseInt (upload_length f)) cumulative)
              && (size <? 5 * 1024 * 1024)) eqn:Hcond.
    + apply andb_true_iff in Hcond as [Hnot Hsmall].
      apply negb_true_iff in Hnot. apply Z.ltb_lt in Hsmall.
      rewrite (chunk_promise_skipped metadata f); try done.
      * exists (Resolved None), [FsRm path]. by repeat split.
      * intros Hfin%strict_eq_final. congruence.
    + assert (Hup : equals_upload_length f cumulative \/ 5 * 1024 * 1024 <= size).
      { apply andb_false_iff in Hcond as [Hlast|Hbig].
        - left. apply strict_eq_final. by apply negb_false_iff in Hlast.
        - right. by apply Z.ltb_ge in Hbig. }
      rewrite (chunk_promise_uploaded metadata f path size partNumber cumulative st Hf Hup).
      eexists _, [UploadPart (part_request metadata f partNumber path); FsRm path].
      simpl. split; [reflexivity|]. split; [|done].
      by destruct (fst (uploadPart client _ _)).
  - unfold chunk_promise, finally. rewrite Hf. simpl.
    eexists _, [FsRm path]. by repeat split.
Qed.

(** A run of the handlers, read off the journal. *)
Lemma on_events_run metadata evs :
  forall (c : Coordinator) (st : Store W),
  exists js qs,
    cache (snd (on_events metadata evs c st)) = cache st
    /\ calls (snd (on_events metadata evs c st)) = calls st ++ js
    /\ removed js = map fst (finished evs)
    /\ pendingChunkFilepath (fst (on_events metadata evs c st))
       = pending_after (pendingChunkFilepath c) evs
    /\ match file metadata with
       | None => uploads js = []
       | Some f =>
           uploads js
           = expected_uploads metadata f (currentPartNumber c) (current_size c)
               (finished evs)
       end
    /\ (uploads js = [] -> s3 (snd (on_events metadata evs c st)) = s3 st)
    /\ promises (fst (on_events metadata evs c st)) = promises c ++ qs
    /\ Forall (fun q => entry_outcome q <> Pending) qs
    /\ length qs = length (finished evs).
Proof.
  induction evs as [|ev evs IH]; intros c st.
  - exists [], []. simpl. rewrite !app_nil_r. repeat split; try done.
    by destruct (file metadata).
  - destruct ev as [filepath|path size]; simpl.
    + destruct (IH (mkCoordinator (Some filepath) (current_size c)
                      (currentPartNumber c) (promises c)) st)
        as (js & qs & H). exists js, qs. exact H.
    + destruct (chunk_promise_cases metadata path size (currentPartNumber c)
                  (Js.add (current_size c) size) st)
        as (outcome & js1 & -> & Hsettled & Hrm & Hup).
      match goal with |- context [on_events metadata evs ?c1 ?s1] =>
        destruct (IH c1 s1) as (js2 & qs & Hc & Hj & Hr & Hp & Hu & Hs & Hq & Hf & Hl)
      end. simpl in *.
      exists (js1 ++ js2), (ChunkPromise (currentPartNumber c) path size outcome :: qs).
      rewrite Hc, Hj, Hp, Hq, removed_app, uploads_app, Hrm, Hr, <- !app_assoc. simpl.
      repeat split.
      * destruct (file metadata) as [f|]; [|by rewrite Hup, Hu].
        rewrite Hup, Hu.
        by destruct (negb _ && _).
      * intros Hnone. apply app_eq_nil in Hnone as [Hn1 Hn2].
        rewrite (Hs Hn2). by rewrite Hn1.
      * constructor; [|done]. simpl. by destruct outcome.
      * by rewrite Hl.
Qed.


Lemma first_rejection_snoc_resolved {A} (os : list (Outcome A)) a :
  first_rejection (os ++ [Resolved a]) = first_rejection os.
Proof. induction os as [|[a'|e'|] os IH]; simpl; eauto. Qed.


Lemma expected_uploads_within metadata f chunks :
  forall start cumulative,
    Forall (fun r => start <= up_PartNumber r < start + Z.of_nat (length chunks)
                     /\ up_Body r ∈ map fst chunks
                     /\ up_Key r = id f /\ up_UploadId r = upload_id metadata)
      (expected_uploads metadata f start cumulative chunks)
    /\ StronglySorted Z.lt
         (map up_PartNumber (expected_uploads metadata f start cumulative chunks)).
Proof.
  induction chunks as [|[path size] chunks IH]; intros start cumulative; simpl.
  - split; constructor.
  - destruct (IH (start + 1) (Js.add cumulative size)) as [Hin Hs].
    assert (Hin' : Forall (fun r => start + 1 <= up_PartNumber r
                                   /\ (start <= up_PartNumber r
                                       < start + Z.of_nat (S (length chunks))
                                       /\ up_Body r ∈ path :: map fst chunks
                                       /\ up_Key r = id f
                                       /\ up_UploadId r = upload_id metadata))
                     (expected_uploads metadata f (start + 1)
                        (Js.add cumulative size) chunks)).
    { eapply Forall_impl; [exact Hin|]. simpl. intros r (Hn & Hb & Hk & Hu).
      repeat split; try done; try lia. by right. }
    destruct (negb _ && _).
    + split; [|done]. eapply Forall_impl; [exact Hin'|]. simpl. tauto.
    + split.
      * constructor.
        -- simpl. repeat split; try done; try lia. by left.
        -- eapply Forall_impl; [exact Hin'|]. simpl. tauto.
      * simpl. constructor; [done|]. apply Forall_fmap.
        eapply Forall_impl; [exact Hin'|]. simpl. intros; lia.
Qed.

Lemma expected_uploads_past metadata f chunks :
  forall start cumulative,
    past_length f cumulative ->
    Forall (fun chunk => 0 < snd chunk < 5 * 1024 * 1024) chunks ->
    expected_uploads metadata f start cumulative chunks = [].
Proof.
  induction chunks as [|[path size] chunks IH]; intros start cumulative Hpast Hsmall;
    simpl; [done|].
  apply Forall_cons in Hsmall as [[Hpos Hlt] Hsmall]. simpl in *.
  assert (Hnot : Js.strict_eq (Js.parseInt (upload_length f)) (Js.add cumulative size)
                 = false).
  { unfold past_length, Js.strict_eq, Js.parseInt, Js.add in *.
    destruct (upload_length f) as [l|], cumulative as [s|]; try done.
    apply Z.eqb_neq. lia. }
  rewrite Hnot. apply Z.ltb_lt in Hlt. rewrite Hlt. simpl.
  apply IH; [|done].
  unfold past_length, Js.add in *.
  destruct (upload_length f) as [l|], cumulative as [s|]; try done. lia.
Qed.

Lemma expected_uploads_small metadata f chunks :
  forall start cumulative,
    Forall (fun chunk => 0 < snd chunk < 5 * 1024 * 1024) chunks ->
    (length (expected_uploads metadata f start cumulative chunks) <= 1)%nat.
Proof.
  induction chunks as [|[path size] chunks IH]; intros start cumulative Hsmall;
    simpl; [lia|].
  pose proof Hsmall as Hall.
  apply Forall_cons in Hsmall as [[Hpos Hlt] Hsmall]. simpl in *.
  destruct (Js.strict_eq _ _) eqn:Heq; simpl.
  - rewrite expected_uploads_past; [simpl; lia| |done].
    unfold past_length, Js.strict_eq, Js.parseInt in *.
    destruct (upload_length f) as [l|], (Js.add cumulative size) as [s|]; try done.
    apply Z.eqb_eq in Heq. lia.
  - apply Z.ltb_lt in Hlt. rewrite Hlt. by apply IH.
Qed.

(** The run of [_processUpload], read off the journal. *)
Lemma processUpload_run metadata readable start initial (st : Store W) :
  exists ps st' js qs,
    _processUpload metadata readable start initial st = (Resolved ps, st')
    /\ cache st' = cache st
    /\ calls st' = calls st ++ js
    /\ removed js
       = map fst (finished (events readable))
         ++ match pipelineErr readable, pending_after None (events readable) with
            | Some _, Some pending => [pending]
            | _, _ => []
            end
    /\ match file metadata with
       | None => uploads js = []
       | Some f =>
           uploads js = expected_uploads metadata f start initial
                          (finished (events readable))
       end
    /\ (uploads js = [] -> s3 st' = s3 st)
    /\ ps = qs ++ [PipelinePromise match pipelineErr readable with
                                   | Some e => Rejected e
                                   | None => Resolved tt
                                   end]
    /\ Forall (fun q => entry_outcome q <> Pending) qs
    /\ length qs = length (finished (events readable)).
Proof.
  unfold _processUpload.
  destruct (on_events_run metadata (events readable)
              (mkCoordinator None initial start []) st)
    as (js & qs & Hc & Hj & Hr & Hp & Hu & Hs & Hq & Hf & Hl).
  destruct (on_events metadata (events readable) _ st) as [c st1]. simpl in *.
  unfold on_pipeline_done. rewrite Hq, Hp. simpl.
  destruct (pipelineErr readable) as [e|];
    [destruct (pending_after None (events readable)) as [pending|]|].
  - eexists _, _, (js ++ [FsRm pending]), qs. split; [reflexivity|].
    unfold record_call. simpl.
    rewrite Hj, removed_app, !uploads_app, Hr. simpl.
    rewrite !app_nil_r, <- app_assoc. repeat split; try done.
  - eexists _, _, js, qs. split; [reflexivity|].
    rewrite app_nil_r. repeat split; try done.
  - eexists _, _, js, qs. split; [reflexivity|].
    rewrite app_nil_r. repeat split; try done.
Qed.



(** X16.  The [uploadPart] requests of one [_processUpload] carry strictly
    ascending part numbers, each between the number the run started with
    and that number plus the count of finished chunks; each streams the file
    of a finished chunk to the upload's key under the upload id of the
    metadata. *)
Theorem processUpload_uploads_ascending
    (metadata : Session) (f : File) (readable : Readable) (start : Z)
    (initial : option Z) (st : Store W) :
  file metadata = Some f ->
  exists ps st' js,
    _processUpload metadata readable start initial st = (Resolved ps, st')
    /\ calls st' = calls st ++ js
    /\ StronglySorted Z.lt (map up_PartNumber (uploads js))
    /\ Forall (fun r =>
                 start <= up_PartNumber r
                   < start + Z.of_nat (length (finished (events readable)))
                 /\ up_Body r ∈ map fst (finished (events readable))
                 /\ up_Key r = id f
                 /\ up_UploadId r = upload_id metadata)
         (uploads js).
Proof.
  intros Hf.
  destruct (processUpload_run metadata readable start initial st)
    as (ps & st' & js & qs & H & _ & Hj & _ & Hu & _).
  rewrite Hf in Hu. exists ps, st', js. split; [done|]. split; [done|].
  rewrite Hu.
  destruct (expected_uploads_within metadata f (finished (events readable))
              start initial) as [Hin Hs].
  by split.
Qed.

(** X17.  When every chunk the stream finishes holds fewer than 5 MiB (and
    at least one byte), [_processUpload] uploads at most one part, the one
    that brings the cumulative size to [upload_length]; when [upload_length]
    is undefined, or the size the run starts from is, it uploads none and
    leaves the object store as it was. *)
Theorem processUpload_small_chunks
    (metadata : Session) (f : File) (readable : Readable) (start : Z)
    (initial : option Z) (st : Store W) :
  file metadata = Some f ->
  Forall (fun chunk => 0 < snd chunk < 5 * 1024 * 1024) (finished (events readable)) ->
  exists ps st' js,
    _processUpload metadata readable start initial st = (Resolved ps, st')
    /\ calls st' = calls st ++ js
    /\ (length (uploads js) <= 1)%nat
    /\ (upload_length f = None \/ initial = None ->
        uploads js = [] /\ s3 st' = s3 st).
Proof.
  intros Hf Hsmall.
  destruct (processUpload_run metadata readable start initial st)
    as (ps & st' & js & qs & H & _ & Hj & _ & Hu & Hs & _).
  rewrite Hf in Hu. exists ps, st', js. split; [done|]. split; [done|]. split.
  - rewrite Hu. by apply expected_uploads_small.
  - intros Hnone.
    assert (Hempty : uploads js = []).
    { rewrite Hu. apply expected_uploads_past; [|done].
      unfold past_length. destruct Hnone as [-> | ->]; [done|].
      by destruct (upload_length f). }
    split; [done|]. by apply Hs.
Qed.

End PartCoordinatorMore.

(** ** What the operations request *)

Section Journals.

Context {W : Type} {this : Config W}.
Variable P : Call -> bool.

Lemma journals_silent {A} (p : Promise W A) :
  (forall st, calls (snd (p st)) = calls st) -> journals P p.
Proof. intros Hp st. exists []. rewrite app_nil_r. by split. Qed.

Lemma journals_resolve {A} (a : A) : journals (W := W) P (resolve a).
Proof. by apply journals_silent. Qed.

Lemma journals_reject {A} e : journals (W := W) (A := A) P (reject e).
Proof. by apply journals_silent. Qed.

Lemma journals_settled {A} (o : Outcome A) : journals (W := W) P (settled o).
Proof. by apply journals_silent. Qed.

Lemma journals_read_cache : journals (W := W) P read_cache.
Proof. by apply journals_silent. Qed.

Lemma journals_write_cache f : journals (W := W) P (write_cache f).
Proof. by apply journals_silent. Qed.

Lemma journals_request {A} c (op : W -> (Error + A) * W) :
  P c = true -> journals P (request c op).
Proof.
  intros Hc st. rewrite request_answer. exists [c]. split; [done|by constructor].
Qed.

Lemma journals_andThen {A B} (p : Promise W A) (k : A -> Promise W B) :
  journals P p -> (forall a, journals P (k a)) -> journals P (andThen p k).
Proof.
  intros Hp Hk st. unfold andThen. destruct (Hp st) as (js & Hj & Hf).
  destruct (p st) as [[a|e|] st1]; simpl in *; [|by exists js|by exists js].
  destruct (Hk a st1) as (ks & Hj' & Hf'). exists (js ++ ks).
  split; [by rewrite Hj', Hj, app_assoc|by apply Forall_app].
Qed.

Lemma journals_catch {A} (p : Promise W A) h :
  journals P p -> (forall e, journals P (h e)) -> journals P (catch p h).
Proof.
  intros Hp Hh st. unfold catch. destruct (Hp st) as (js & Hj & Hf).
  destruct (p st) as [[a|e|] st1]; simpl in *; [by exists js| |by exists js].
  destruct (Hh e st1) as (ks & Hj' & Hf'). exists (js ++ ks).
  split; [by rewrite Hj', Hj, app_assoc|by apply Forall_app].
Qed.

Lemma journals_finally {A} (p : Promise W A) c :
  journals P p -> P c = true -> journals P (finally p (record_call c)).
Proof.
  intros Hp Hc st. unfold finally. destruct (Hp st) as (js & Hj & Hf).
  destruct (p st) as [[a|e|] st1]; simpl in *; [| |by exists js];
    (exists (js ++ [c]); split; [by rewrite Hj, app_assoc|];
     apply Forall_app; split; [done|by constructor]).
Qed.

Lemma journals_all2 {A B} (a : Promise W A) (b : Promise W B) :
  journals P a -> journals P b -> journals P (all2 a b).
Proof.
  intros Ha Hb st. unfold all2. destruct (Ha st) as (js & Hj & Hf).
  destruct (a st) as [ra st1]. destruct (Hb st1) as (ks & Hj' & Hf').
  destruct (b st1) as [rb st2]. simpl in *.
  exists (js ++ ks).
  assert (calls st2 = calls st ++ js ++ ks) by by rewrite Hj', Hj, app_assoc.
  assert (Forall (fun c => P c = true) (js ++ ks)) by by apply Forall_app.
  by destruct ra, rb.
Qed.

Create HintDb journal discriminated.

Hint Resolve journals_resolve journals_reject journals_settled journals_read_cache
  journals_write_cache : journal.
Hint Extern 2 (journals _ (request _ _)) =>
  apply journals_request; solve [auto] : journal.
Hint Extern 3 (journals _ (andThen _ _)) =>
  apply journals_andThen; [|intros ?] : journal.
Hint Extern 3 (journals _ (catch _ _)) =>
  apply journals_catch; [|intros ?] : journal.
Hint Extern 3 (journals _ (finally _ (record_call _))) =>
  apply journals_finally; [|solve [auto]] : journal.
Hint Extern 3 (journals _ (all2 _ _)) => apply journals_all2 : journal.
Hint Extern 4 (journals _ (match ?x with _ => _ end)) => destruct x : journal.
Hint Extern 4 (journals _ (if ?x then _ else _)) => destruct x : journal.

Hypothesis P_HeadObject : forall r, P (HeadObject r) = true.
Hypothesis P_ListParts : forall r, P (ListParts r) = true.

Lemma journals_getMetadata file_id : journals P (_getMetadata file_id).
Proof. unfold _getMetadata. auto 20 with journal. Qed.

Lemma journals_retrieveParts fuel file_id marker :
  journals P (_retrieveParts fuel file_id marker).
Proof.
  revert marker. induction fuel as [|fuel IH]; intros marker; simpl;
    auto 20 with journal.
Qed.

Hint Resolve journals_getMetadata journals_retrieveParts : journal.

Lemma journals_countParts file_id : journals P (_countParts file_id).
Proof. unfold _countParts. auto 20 with journal. Qed.

Lemma journals_getOffset file_id : journals P (getOffset file_id).
Proof. unfold getOffset, offset_record. auto 20 with journal. Qed.

Hint Resolve journals_countParts journals_getOffset : journal.

Lemma journals_write_catch file_id e : journals P (write_catch file_id e).
Proof. unfold write_catch, _clearCache. auto 20 with journal. Qed.

Hypothesis P_UploadPart : forall r, P (UploadPart r) = true.
Hypothesis P_FsRm : forall path, P (FsRm path) = true.

Lemma journals_chunk_promise metadata path size partNumber cumulative :
  journals P (chunk_promise metadata path size partNumber cumulative).
Proof. unfold chunk_promise, _uploadPart. auto 20 with journal. Qed.

Lemma journals_on_events metadata evs :
  forall c (st : Store W), exists js,
    calls (snd (on_events metadata evs c st)) = calls st ++ js
    /\ Forall (fun c => P c = true) js.
Proof.
  induction evs as [|ev evs IH]; intros c st; simpl.
  - exists []. rewrite app_nil_r. by split.
  - destruct ev as [filepath|path size]; simpl; [apply IH|].
    destruct (journals_chunk_promise metadata path size (currentPartNumber c)
                (Js.add (current_size c) size) st) as (js & Hj & Hf).
    destruct (chunk_promise _ _ _ _ _ st) as [outcome st1]. simpl in Hj.
    match goal with |- context [on_events metadata evs ?c1 st1] =>
      destruct (IH c1 st1) as (ks & Hj' & Hf') end.
    exists (js ++ ks). split; [by rewrite Hj', Hj, app_assoc|by apply Forall_app].
Qed.

Lemma journals_processUpload metadata readable start initial :
  journals P (_processUpload metadata readable start initial).
Proof.
  intros st. unfold _processUpload.
  destruct (journals_on_events metadata (events readable)
              (mkCoordinator None initial start []) st) as (js & Hj & Hf).
  destruct (on_events _ _ _ st) as [c st1]. simpl in *.
  unfold on_pipeline_done.
  destruct (pipelineErr readable) as [e|]; [|by exists js].
  destruct (pendingChunkFilepath c) as [pending|]; [|by exists js]. simpl.
  exists (js ++ [FsRm pending]). split; [by rewrite Hj, app_assoc|].
  apply Forall_app. split; [done|]. by constructor.
Qed.

End Journals.

Section Reads.

Context {W : Type} {this : Config W}.

Lemma getMetadata_cache_other file_id (st : Store W) other :
  other <> file_id ->
  cache (snd (_getMetadata file_id st)) !! other = cache st !! other.
Proof.
  intros Hne. destruct (cache st !! file_id) as [[[f|] u a]|] eqn:Hc.
  - by rewrite (getMetadata_hit file_id st _ f Hc eq_refl).
  - rewrite getMetadata_miss by (intros ?; rewrite Hc; by intros [= <-]).
    destruct (headObject client _ _) as [[e|Metadata] w']; [done|].
    destruct (Metadata !! "file") as [text|]; [|done].
    destruct (JSON_parse text); [|done]. simpl. by rewrite lookup_insert_ne.
  - rewrite getMetadata_miss by (intros ?; by rewrite Hc).
    destruct (headObject client _ _) as [[e|Metadata] w']; [done|].
    destruct (Metadata !! "file") as [text|]; [|done].
    destruct (JSON_parse text); [|done]. simpl. by rewrite lookup_insert_ne.
Qed.

(** [getOffset] leaves the cache as [_getMetadata] left it. *)
Lemma getOffset_cache file_id (st : Store W) :
  cache (snd (getOffset file_id st)) = cache (snd (_getMetadata file_id st)).
Proof.
  unfold getOffset, andThen at 1, catch at 1.
  destruct (_getMetadata file_id st) as [[metadata|e|] st1]; [|done|done]. simpl.
  pose proof (retrieveParts_cache page_fuel file_id None st1) as Hk.
  unfold catch, andThen at 1.
  destruct (_retrieveParts page_fuel file_id None st1) as [[ps|e|] st2];
    simpl in Hk; [| |done].
  - unfold offset_record, andThen. simpl.
    destruct (cache st2 !! file_id); [|done]. by destruct (file metadata).
  - destruct (negb _); [done|]. unfold offset_record, andThen. simpl.
    destruct (cache st2 !! file_id); [|done]. by destruct (file metadata).
Qed.

(** X18.  [getOffset] only reads from the object store: the requests it
    makes are [headObject] and [listParts] requests.  It removes no cache
    entry and touches no entry but the one of its id. *)
Theorem getOffset_reads_only (file_id : string) (st : Store W) :
  exists js,
    calls (snd (getOffset file_id st)) = calls st ++ js
    /\ Forall (fun c => is_read c = true) js
    /\ (forall k, is_Some (cache st !! k) ->
          is_Some (cache (snd (getOffset file_id st)) !! k))
    /\ (forall other, other <> file_id ->
          cache (snd (getOffset file_id st)) !! other = cache st !! other).
Proof.
  destruct (journals_getOffset is_read (fun _ => eq_refl) (fun _ => eq_refl)
              file_id st) as (js & Hj & Hf).
  exists js. split; [done|]. split; [done|]. split.
  - by destruct (steady_getOffset file_id st) as [Hkeep _].
  - intros other Hne. rewrite getOffset_cache. by apply getMetadata_cache_other.
Qed.

(** X19.  A failure of the reads that open [write] reaches the caller as it
    is, whatever its code: when [_getMetadata] fails, [write] rejects with
    its error and does nothing more; when counting the parts or reading the
    initial offset fails, [write] rejects with that error, having made
    only reading requests (no chunk is handled, none uploaded, no file
    removed), and the cache entry of the id is left in place. *)
Theorem write_initial_failure (readable : Readable) (file_id : string) (st : Store W) :
  (forall e st1,
     _getMetadata file_id st = (Rejected e, st1) ->
     write readable file_id st = (Rejected e, st1))
  /\ (forall metadata st1 e st2,
        _getMetadata file_id st = (Resolved metadata, st1) ->
        all2 (_countParts file_id) (getOffset file_id) st1 = (Rejected e, st2) ->
        write readable file_id st = (Rejected e, st2)
        /\ is_Some (cache st2 !! file_id)
        /\ exists js, calls st2 = calls st ++ js
                      /\ Forall (fun c => is_read c = true) js).
Proof.
  split.
  - intros e st1 Hm. unfold write. by apply andThen_rejected.
  - intros metadata st1 e st2 Hm Hall. split; [|split].
    + unfold write. rewrite (andThen_resolved _ _ _ _ _ Hm).
      by apply andThen_rejected.
    + pose proof (steady_all2 _ _ (steady_countParts file_id)
                    (steady_getOffset file_id) st1) as [Hkeep _].
      rewrite Hall in Hkeep. apply Hkeep.
      rewrite (getMetadata_cached _ _ _ _ Hm). eauto.
    + destruct (journals_getMetadata is_read (fun _ => eq_refl) file_id st)
        as (js & Hj & Hf). rewrite Hm in Hj.
      destruct (journals_all2 is_read _ _
                  (journals_countParts is_read (fun _ => eq_refl) file_id)
                  (journals_getOffset is_read (fun _ => eq_refl) (fun _ => eq_refl)
                     file_id) st1) as (ks & Hj' & Hf').
      rewrite Hall in Hj'. simpl in *. exists (js ++ ks).
      split; [by rewrite Hj', Hj, app_assoc|by apply Forall_app].
Qed.

(** X20.  While the upload's length is undefined, [write] never asks for the
    multipart upload to be completed, whatever the stream delivers and
    whatever the object store answers. *)
Theorem write_deferred_never_completes
    (readable : Readable) (file_id : string) (st st1 : Store W)
    (metadata : Session) (f : File) :
  _getMetadata file_id st = (Resolved metadata, st1) ->
  file metadata = Some f ->
  upload_length f = None ->
  exists js,
    calls (snd (write readable file_id st)) = calls st ++ js
    /\ Forall (fun c => is_completion c = false) js.
Proof.
  intros Hm Hf Hlen.
  set (Q := fun c => negb (is_completion c)).
  assert (Hchain : forall ps, journals Q (write_chain metadata file_id ps)).
  { intros ps. unfold write_chain.
    apply journals_andThen; [apply journals_settled|]. intros _.
    apply journals_andThen; [by apply journals_getOffset|]. intros current_offset.
    rewrite Hf, Hlen. simpl. apply journals_resolve. }
  assert (Hrest : journals Q
            (fun st1 =>
               andThen (all2 (_countParts file_id) (getOffset file_id))
                 (fun x =>
                    match x with
                    | (part_number, initial_offset) =>
                        andThen (_processUpload metadata readable (part_number + 1)
                                   (size initial_offset))
                          (fun ps => catch (write_chain metadata file_id ps)
                                       (write_catch file_id))
                    end) st1)).
  { apply journals_andThen.
    - apply journals_all2; [by apply journals_countParts|by apply journals_getOffset].
    - intros [part_number initial_offset].
      apply journals_andThen; [by apply journals_processUpload|]. intros ps.
      apply journals_catch; [apply Hchain|]. intros e.
      by apply journals_write_catch. }
  destruct (journals_getMetadata Q (fun _ => eq_refl) file_id st) as (js & Hj & Hjs).
  rewrite Hm in Hj. destruct (Hrest st1) as (ks & Hk & Hks).
  unfold write. rewrite (andThen_resolved _ _ _ _ _ Hm).
  exists (js ++ ks). simpl in *. split; [by rewrite Hk, Hj, app_assoc|].
  apply Forall_app. split; (eapply Forall_impl; [eassumption|]);
    intros c Hc; by apply negb_true_iff in Hc.
Qed.

End Reads.

(** ** Runs on the scripted store *)

(** A header with a file name, a content type and a key that stands
    alone. *)
Lemma parseMetadataString_rendered_witness :
  _parseMetadataString (this := Samples.config) (Some Samples.header) !! "contentType"
    = Some {| encoded := Some "dmlkZW8vbXA0"; decoded := Some "video/mp4" |}
  /\ _parseMetadataString (this := Samples.config) (Some Samples.header)
       !! "is_confidential"
     = Some {| encoded := None; decoded := None |}
  /\ _parseMetadataString (this := Samples.config) (Some Samples.header) !! "size"
     = None.
Proof.
  destruct (parseMetadataString_rendered (this := Samples.config) Samples.entries)
    as [_ Hlookup].
  - repeat constructor.
  - vm_compute. discriminate.
  - destruct Hlookup as [Hin Hout].
    + apply (bool_decide_unpack _). vm_compute. exact I.
    + split; [|split].
      * apply (Hin "contentType" (Some "dmlkZW8vbXA0")).
        apply list_elem_of_further, list_elem_of_here.
      * apply (Hin "is_confidential" None).
        do 2 apply list_elem_of_further. apply list_elem_of_here.
      * apply (Hout "size"). apply (bool_decide_unpack _). vm_compute. exact I.
Defined.

(** The multipart upload of an upload with that header is created with the
    content type decoded and the file name as received. *)
Lemma initMultipartUpload_request_witness :
  exists r rest,
    calls (snd (_initMultipartUpload (this := Samples.config) Samples.clip
                  (Scripted.store [] Scripted.silent)))
      = CreateMultipartUpload r :: rest
    /\ cmu_ContentType r = Some "video/mp4"
    /\ mm_original_name (cmu_Metadata r) = Some "bW92aWUubXA0"
    /\ mm_upload_length (cmu_Metadata r) = Some 100.
Proof.
  destruct (initMultipartUpload_request (this := Samples.config) Samples.clip
              Samples.entries (Scripted.store [] Scripted.silent))
    as (r & rest & Hcalls & _ & Hlen & _ & _ & Htype & _ & Hname & _).
  - reflexivity.
  - repeat constructor.
  - vm_compute. discriminate.
  - apply (bool_decide_unpack _). vm_compute. exact I.
  - exists r, rest. split; [exact Hcalls|]. split; [|split].
    + apply (Htype (Some "dmlkZW8vbXA0")).
      apply list_elem_of_further, list_elem_of_here.
    + apply (Hname (Some "bW92aWUubXA0")). apply list_elem_of_here.
    + exact Hlen.
Defined.

(** A listing that repeats a number still comes back without a repeat. *)
Lemma retrieveParts_result_ascending_witness :
  let st := Scripted.store [("movie", Scripted.session_of Scripted.movie)]
              (Scripted.mkScript [] [] [] [] []
                 [Scripted.page [Scripted.part 1 5; Scripted.part 1 6; Scripted.part 3 7] None]
                 []) in
  exists result st',
    _retrieveParts (this := Scripted.config [] 1) 1 "movie" None st = (Resolved result, st')
    /\ NoDup (map PartNumber result).
Proof.
  intros st.
  edestruct (retrieveParts_result_ascending (this := Scripted.config [] 1) 1 "movie" st)
    as (_ & Hnodup & _).
  - vm_compute. reflexivity.
  - eexists _, _. split; [vm_compute; reflexivity|]. exact Hnodup.
Defined.

(** Parts 3, 1, 2 and parts 1, 2, 3 are sorted and filtered alike. *)
Lemma sorted_filtered_order_independent_witness :
  filter_index (sort_parts [Scripted.part 3 7; Scripted.part 1 8; Scripted.part 2 9])
    = filter_index (sort_parts [Scripted.part 1 8; Scripted.part 2 9; Scripted.part 3 7]).
Proof.
  apply (sorted_filtered_order_independent
           [Scripted.part 3 7; Scripted.part 1 8; Scripted.part 2 9]
           [Scripted.part 1 8; Scripted.part 2 9; Scripted.part 3 7]).
  - apply (Permutation_cons_append [Scripted.part 1 8; Scripted.part 2 9]
             (Scripted.part 3 7)).
  - apply (bool_decide_unpack _). vm_compute. exact I.
Defined.

(** Parts 1 and 2, listed in this order, come back as they are. *)
Lemma retrieveParts_contiguous_unchanged_witness :
  let listing := [Scripted.part 1 8; Scripted.part 2 6] in
  let st := Scripted.store [("movie", Scripted.session_of Scripted.movie)]
              (Scripted.mkScript [] [] [] [] [] [Scripted.page listing None] []) in
  fst (_retrieveParts (this := Scripted.config [] 1) 1 "movie" None st) = Resolved listing.
Proof.
  intros listing st.
  rewrite (retrieveParts_contiguous_unchanged (this := Scripted.config [] 1)
             "movie" (Scripted.session_of Scripted.movie) st 1 1
             [ListParts (page_request (this := Scripted.config [] 1)
                           (Some "mpu-1") "movie" None)]
             listing Scripted.silent).
  - reflexivity.
  - reflexivity.
  - eapply (listed_last (this := Scripted.config [] 1) _ _ None _
              (mkListPartsOutput listing None)); reflexivity.
  - lia.
  - intros [|[|j]] p; simpl; intros [= <-]; reflexivity.
Defined.


(** The sidecar of the movie, handed back with the upload id under
    [upload-id]. *)
Lemma sidecar_round_trip_witness :
  let saved := sidecar_request (this := Scripted.config [Scripted.movie] 1)
                 Scripted.movie (Some "mpu-7") in
  let st := Scripted.store []
              (Scripted.mkScript [] [] [] [inr (user_metadata "upload-id" (po_Metadata saved))]
                 [] [] []) in
  exists entry st',
    _getMetadata (this := Scripted.config [Scripted.movie] 1) "movie" st
      = (Resolved entry, st')
    /\ file entry = Some Scripted.movie
    /\ upload_id entry = Some "mpu-7".
Proof.
  intros saved st.
  destruct (sidecar_round_trip (this := Scripted.config [Scripted.movie] 1)
              Scripted.movie "mpu-7" "upload-id" st Scripted.silent)
    as (_ & entry & Hrun & Hfile & Hid & _).
  - right. reflexivity.
  - discriminate.
  - reflexivity.
  - intros entry Hentry. vm_compute in Hentry. discriminate.
  - reflexivity.
  - exists entry. eexists. split; [exact Hrun|]. split; [exact Hfile|exact Hid].
Defined.

(** The second read of the movie's metadata makes no request. *)
Lemma getMetadata_served_from_cache_witness :
  let Metadata : gmap string string := {[ "file" := "movie"; "upload_id" := "mpu-7" ]} in
  let st := Scripted.store [] (Scripted.mkScript [] [] [] [inr Metadata] [] [] []) in
  exists metadata st1,
    _getMetadata (this := Scripted.config [Scripted.movie] 1) "movie" st
      = (Resolved metadata, st1)
    /\ _getMetadata (this := Scripted.config [Scripted.movie] 1) "movie" st1
       = (Resolved metadata, st1).
Proof.
  intros Metadata st.
  edestruct (getMetadata_served_from_cache (this := Scripted.config [Scripted.movie] 1)
               "movie" st) as [Hcached _].
  - vm_compute. reflexivity.
  - eexists _, _. split; [vm_compute; reflexivity|].
    apply Hcached. eexists. reflexivity.
Defined.

(** A sidecar that is not there: the cache stays empty. *)
Lemma getMetadata_failure_keeps_cache_witness :
  let NotFound := CodedError "NotFound" (Some 404) "Not Found" in
  let st := Scripted.store [] (Scripted.mkScript [] [] [] [inl NotFound] [] [] []) in
  cache (snd (_getMetadata (this := Scripted.config [] 1) "gone" st)) = ∅.
Proof.
  intros NotFound st.
  edestruct (getMetadata_failure_keeps_cache (this := Scripted.config [] 1) "gone" st)
    as (Hcache & _).
  - vm_compute. reflexivity.
  - exact Hcache.
Defined.

(** Declaring 7 MiB for the deferred upload while the sidecar cannot be
    written: the call resolves and the cache holds the length. *)
Lemma declareUploadLength_then_getMetadata_witness :
  let st := Scripted.store [("deferred", Scripted.session_of Scripted.deferred)]
              Scripted.silent in
  exists st2 metadata,
    declareUploadLength (this := Scripted.config [] 1) "deferred" (7 * Scripted.MiB) st
      = (Resolved tt, st2)
    /\ _getMetadata (this := Scripted.config [] 1) "deferred" st2 = (Resolved metadata, st2)
    /\ (upload_length <$> file metadata) = Some (Some (7 * Scripted.MiB)).
Proof.
  intros st.
  destruct (declareUploadLength_then_getMetadata (this := Scripted.config [] 1)
              "deferred" (7 * Scripted.MiB) st st
              (Scripted.session_of Scripted.deferred) Scripted.deferred)
    as (st2 & Hrun & _ & Hget & _).
  - reflexivity.
  - reflexivity.
  - exists st2. eexists. split; [exact Hrun|]. split; [exact Hget|reflexivity].
Defined.

(** A stream of 8, 8 and 4 MiB onto an empty upload of 20 MiB: three
    requests, numbered upwards. *)
Lemma processUpload_uploads_ascending_witness :
  let st := Scripted.store [("movie", Scripted.session_of Scripted.movie)]
              (Scripted.mkScript [] [] [] [] [inr "e1"; inr "e2"; inr "e3"] [] []) in
  let readable :=
    mkReadable [chunkStarted "/tmp/a"; chunkFinished "/tmp/a" (8 * Scripted.MiB);
                chunkStarted "/tmp/b"; chunkFinished "/tmp/b" (8 * Scripted.MiB);
                chunkStarted "/tmp/c"; chunkFinished "/tmp/c" (4 * Scripted.MiB)] None in
  exists ps st' js,
    _processUpload (this := Scripted.config [] 1) (Scripted.session_of Scripted.movie)
      readable 1 (Some 0) st = (Resolved ps, st')
    /\ calls st' = calls st ++ js
    /\ StronglySorted Z.lt (map up_PartNumber (uploads js)).
Proof.
  intros st readable.
  destruct (processUpload_uploads_ascending (this := Scripted.config [] 1)
              (Scripted.session_of Scripted.movie) Scripted.movie readable 1 (Some 0) st
              eq_refl)
    as (ps & st' & js & Hrun & Hcalls & Hsorted & _).
  by exists ps, st', js.
Defined.

(** Chunks of 3 MiB onto the deferred upload: nothing is uploaded. *)
Lemma processUpload_small_chunks_witness :
  let st := Scripted.store [("deferred", Scripted.session_of Scripted.deferred)]
              (Scripted.mkScript [] [] [] [] [inr "e1"] [] []) in
  let readable :=
    mkReadable [chunkStarted "/tmp/a"; chunkFinished "/tmp/a" (3 * Scripted.MiB);
                chunkStarted "/tmp/b"; chunkFinished "/tmp/b" (3 * Scripted.MiB)] None in
  exists ps st' js,
    _processUpload (this := Scripted.config [] 1) (Scripted.session_of Scripted.deferred)
      readable 1 (Some 0) st = (Resolved ps, st')
    /\ calls st' = calls st ++ js
    /\ uploads js = []
    /\ s3 st' = s3 st.
Proof.
  intros st readable.
  destruct (processUpload_small_chunks (this := Scripted.config [] 1)
              (Scripted.session_of Scripted.deferred) Scripted.deferred readable 1
              (Some 0) st eq_refl)
    as (ps & st' & js & Hrun & Hcalls & _ & Hnone).
  - repeat constructor.
  - destruct Hnone as [Hempty Hs3]; [left; reflexivity|].
    by exists ps, st', js.
Defined.

(** 7 MiB onto the deferred upload: the part is sent, the upload is not
    completed. *)
Lemma write_deferred_never_completes_witness :
  let st := Scripted.store [("deferred", Scripted.session_of Scripted.deferred)]
              (Scripted.mkScript [] [] [] [] [inr "e1"]
                 [Scripted.page [] None; Scripted.page [] None;
                  Scripted.page [Scripted.part 1 (7 * Scripted.MiB)] None]
                 [inr "location"]) in
  let readable :=
    mkReadable [chunkStarted "/tmp/a"; chunkFinished "/tmp/a" (7 * Scripted.MiB)] None in
  exists js,
    calls (snd (write (this := Scripted.config [] 1) readable "deferred" st)) = js
    /\ Forall (fun c => is_completion c = false) js.
Proof.
  intros st readable.
  destruct (write_deferred_never_completes (this := Scripted.config [] 1)
              readable "deferred" st st (Scripted.session_of Scripted.deferred)
              Scripted.deferred eq_refl eq_refl eq_refl)
    as (js & Hcalls & Hnone).
  exists js. split; [exact Hcalls|exact Hnone].
Defined.

(** Listing the parts of an upload the cache knows nothing of. *)
Lemma retrieveParts_needs_cache_entry_witness :
  exists message,
    _retrieveParts (this := Scripted.config [] 1) 1 "gone" None
      (Scripted.store [] Scripted.silent)
    = (Rejected (TypeError message), Scripted.store [] Scripted.silent).
Proof.
  apply (proj1 (retrieveParts_needs_cache_entry (this := Scripted.config [] 1)
                  0 "gone" None (Scripted.store [] Scripted.silent))).
  reflexivity.
Defined.

(** The multipart upload is gone when [write] counts the parts. *)
Lemma write_initial_failure_witness :
  let st := Scripted.store [("movie", Scripted.session_of Scripted.movie)]
              (Scripted.mkScript [] [] [] [] []
                 [inl Scripted.NoSuchUpload; inl Scripted.NoSuchUpload] []) in
  fst (write (this := Scripted.config [] 1) (mkReadable [] None) "movie" st)
    = Rejected Scripted.NoSuchUpload
  /\ is_Some (cache (snd (write (this := Scripted.config [] 1) (mkReadable [] None)
                            "movie" st)) !! "movie").
Proof.
  intros st.
  edestruct (proj2 (write_initial_failure (this := Scripted.config [] 1)
                      (mkReadable [] None) "movie" st)
               (Scripted.session_of Scripted.movie) st Scripted.NoSuchUpload)
    as (Hwrite & Hcache & _).
  - reflexivity.
  - vm_compute. reflexivity.
  - rewrite Hwrite. split; [reflexivity|exact Hcache].
Defined.
